(** * astro-cache: the caching engine of [src/cache.ts]

    A shallow embedding of [deriveKey], [swr], [memo] and [clearAllCaches]
    together with the parts of the JavaScript runtime and of the two
    packages they rest on ([JSON.stringify], flat-cache's [FlatCache] and
    stale-while-revalidate-cache), followed by the properties of the
    specification.

    Conventions.
    - A JavaScript string is a [string]: code units are restricted to the
      range 0..255 (no surrogates).
    - A finite number is an integer [Z] (milliseconds, counters, ids); the
      non-finite numbers have constructors of their own.
    - A call of an [async] function is run to completion: [await] is
      sequencing, a rejected promise is [Throw].
    - Objects are plain data: no [toJSON] method, no getter. *)

From Stdlib Require Import ZArith String Ascii List Lia Bool.
From Stdlib Require Import Decimal DecimalString DecimalPos DecimalZ.
From stdpp Require Import gmap strings list.

Local Open Scope Z_scope.

(* stdpp freezes [String.append] under [simpl]; the proofs below compute
   with literal prefixes. *)
#[local] Arguments String.append !s1 s2 : simpl nomatch.

(** ** JavaScript values and completions *)

Module Js.

(** The double quote character, code unit 0x22. *)
Definition dquote : ascii := "034"%char.

(** ECMAScript values as [JSON.stringify] meets them.  An array or object is
    given by the tree that the serializer walks: [elems] in index order,
    [props] in the order of [EnumerableOwnProperties].  [JCircular up] stands
    for a reference to the array or object [up] levels above, which is still
    being serialized when the walk reaches it: the one way a cyclic
    structure shows itself to the walk. *)
#[warnings="-register-all"]
Inductive JsVal : Type :=
| JUndefined
| JNull
| JBool (b : bool)
| JNumber (n : Z)
| JNaN
| JInfinity (negative : bool)
| JBigInt (n : Z)
| JString (s : string)
| JSymbol (description : string)
| JFunction (name : string)
| JArray (elems : list JsVal)
| JObject (props : list (string * JsVal))
| JCircular (up : nat).

Inductive JsError : Type :=
| TypeError (message : string)
| Rejected (reason : JsVal).

(** A completion: a normal value or a thrown exception. *)
Inductive result (A : Type) : Type :=
| Ok (a : A)
| Throw (e : JsError).

Arguments Ok {A} a.
Arguments Throw {A} e.

Definition is_throw {A} (r : result A) : bool :=
  match r with Ok _ => false | Throw _ => true end.

(** Induction over values that reaches inside arrays and objects. *)
Section JsVal_induction.
Variable P : JsVal -> Prop.
Hypothesis Hundefined : P JUndefined.
Hypothesis Hnull : P JNull.
Hypothesis Hbool : forall b, P (JBool b).
Hypothesis Hnumber : forall n, P (JNumber n).
Hypothesis Hnan : P JNaN.
Hypothesis Hinfinity : forall b, P (JInfinity b).
Hypothesis Hbigint : forall n, P (JBigInt n).
Hypothesis Hstring : forall s, P (JString s).
Hypothesis Hsymbol : forall d, P (JSymbol d).
Hypothesis Hfunction : forall f, P (JFunction f).
Hypothesis Harray : forall elems, Forall P elems -> P (JArray elems).
Hypothesis Hobject :
  forall props, Forall (fun kv => P (snd kv)) props -> P (JObject props).
Hypothesis Hcircular : forall up, P (JCircular up).

Fixpoint JsVal_deep_ind (v : JsVal) : P v :=
  match v with
  | JUndefined => Hundefined
  | JNull => Hnull
  | JBool b => Hbool b
  | JNumber n => Hnumber n
  | JNaN => Hnan
  | JInfinity b => Hinfinity b
  | JBigInt n => Hbigint n
  | JString s => Hstring s
  | JSymbol d => Hsymbol d
  | JFunction f => Hfunction f
  | JArray elems =>
      Harray elems
        ((fix go (l : list JsVal) : Forall P l :=
            match l with
            | [] => List.Forall_nil P
            | x :: l' => List.Forall_cons _ x l' (JsVal_deep_ind x) (go l')
            end) elems)
  | JObject props =>
      Hobject props
        ((fix go (l : list (string * JsVal)) : Forall (fun kv => P (snd kv)) l :=
            match l with
            | [] => List.Forall_nil _
            | kv :: l' => List.Forall_cons _ kv l' (JsVal_deep_ind (snd kv)) (go l')
            end) props)
  | JCircular up => Hcircular up
  end.
End JsVal_induction.

(** ** [JSON.stringify] (ECMA-262, 25.5.2) *)

Definition hex_digit (n : N) : ascii :=
  (match n with
   | 0 => "0" | 1 => "1" | 2 => "2" | 3 => "3" | 4 => "4" | 5 => "5"
   | 6 => "6" | 7 => "7" | 8 => "8" | 9 => "9" | 10 => "a" | 11 => "b"
   | 12 => "c" | 13 => "d" | 14 => "e" | _ => "f"
   end)%char%N.

(** [UnicodeEscape]: a backslash, [u] and four lowercase hexadecimal digits. *)
Definition UnicodeEscape (c : ascii) : string :=
  let n := N_of_ascii c in
  "\u00" +:+ String (hex_digit (n / 16)) (String (hex_digit (n mod 16)) EmptyString).

(** One code unit of [QuoteJSONString]: the escapes of its table, then
    [UnicodeEscape] for the other control characters, then the unit itself. *)
Definition quote_unit (c : ascii) : string :=
  match c with
  | "008"%char => "\b"
  | "009"%char => "\t"
  | "010"%char => "\n"
  | "012"%char => "\f"
  | "013"%char => "\r"
  | "034"%char => String "\" (String dquote EmptyString)
  | "\"%char => "\\"
  | _ => if (N_of_ascii c <? 32)%N then UnicodeEscape c else String c EmptyString
  end.

Fixpoint quote_units (s : string) : string :=
  match s with
  | EmptyString => EmptyString
  | String c s' => quote_unit c +:+ quote_units s'
  end.

Definition QuoteJSONString (s : string) : string :=
  String dquote (quote_units s +:+ String dquote EmptyString).

(** [Number::toString] on an integer of magnitude below 10^21: its decimal
    digits, with a minus sign when negative. *)
Definition Number_toString (n : Z) : string :=
  NilEmpty.string_of_int (Z.to_int n).

(** [Array.prototype.join] as the serializer uses it. *)
Fixpoint join (sep : string) (parts : list string) : string :=
  match parts with
  | [] => EmptyString
  | [p] => p
  | p :: rest => p +:+ sep +:+ join sep rest
  end.

Definition circular_message : string := "Converting circular structure to JSON".
Definition bigint_message : string := "Do not know how to serialize a BigInt".

(** [SerializeJSONProperty]: [Ok None] is the [undefined] the abstract
    operation returns for values JSON cannot hold. *)
Fixpoint SerializeJSONProperty (v : JsVal) : result (option string) :=
  match v with
  | JNull => Ok (Some "null")
  | JBool true => Ok (Some "true")
  | JBool false => Ok (Some "false")
  | JString s => Ok (Some (QuoteJSONString s))
  | JNumber n => Ok (Some (Number_toString n))
  | JNaN | JInfinity _ => Ok (Some "null")
  | JBigInt _ => Throw (TypeError bigint_message)
  | JUndefined | JSymbol _ | JFunction _ => Ok None
  | JCircular _ => Throw (TypeError circular_message)
  | JArray elems =>
      (* SerializeJSONArray: an undefined element is written as null *)
      match
        (fix elements (l : list JsVal) : result (list string) :=
           match l with
           | [] => Ok []
           | x :: l' =>
               match SerializeJSONProperty x with
               | Throw e => Throw e
               | Ok strP =>
                   match elements l' with
                   | Throw e => Throw e
                   | Ok partial => Ok (default "null" strP :: partial)
                   end
               end
           end) elems
      with
      | Throw e => Throw e
      | Ok partial => Ok (Some ("[" +:+ join "," partial +:+ "]"))
      end
  | JObject props =>
      (* SerializeJSONObject: a property whose value is undefined is left out *)
      match
        (fix members (l : list (string * JsVal)) : result (list string) :=
           match l with
           | [] => Ok []
           | (k, x) :: l' =>
               match SerializeJSONProperty x with
               | Throw e => Throw e
               | Ok strP =>
                   match members l' with
                   | Throw e => Throw e
                   | Ok partial =>
                       match strP with
                       | Some str => Ok ((QuoteJSONString k +:+ ":" +:+ str) :: partial)
                       | None => Ok partial
                       end
                   end
               end
           end) props
      with
      | Throw e => Throw e
      | Ok partial => Ok (Some ("{" +:+ join "," partial +:+ "}"))
      end
  end.

(** The two loops of the serializer under names of their own. *)
Fixpoint SerializeJSONArray_elements (l : list JsVal) : result (list string) :=
  match l with
  | [] => Ok []
  | x :: l' =>
      match SerializeJSONProperty x with
      | Throw e => Throw e
      | Ok strP =>
          match SerializeJSONArray_elements l' with
          | Throw e => Throw e
          | Ok partial => Ok (default "null" strP :: partial)
          end
      end
  end.

Fixpoint SerializeJSONObject_members (l : list (string * JsVal)) : result (list string) :=
  match l with
  | [] => Ok []
  | (k, x) :: l' =>
      match SerializeJSONProperty x with
      | Throw e => Throw e
      | Ok strP =>
          match SerializeJSONObject_members l' with
          | Throw e => Throw e
          | Ok partial =>
              match strP with
              | Some str => Ok ((QuoteJSONString k +:+ ":" +:+ str) :: partial)
              | None => Ok partial
              end
          end
      end
  end.

(** [JSON.stringify(value)] with no replacer and no indentation. *)
Definition JSON_stringify (value : JsVal) : result (option string) :=
  SerializeJSONProperty value.

End Js.

Import Js.

(** ** [deriveKey] *)

(** [args.length === 0 ? "_" : JSON.stringify(args)].  The argument list is a
    JavaScript array, so [JSON.stringify] answers with a string or throws
    (lemma [deriveKey_cons]): the [undefined] it has for other values does
    not occur. *)
Definition deriveKey (args : list JsVal) : result string :=
  match args with
  | [] => Ok "_"
  | _ :: _ =>
      match JSON_stringify (JArray args) with
      | Ok (Some key) => Ok key
      | Ok None => Ok "undefined"
      | Throw e => Throw e
      end
  end.

(** ** Classes of argument lists *)

(** The JSON-representable values: null, booleans, finite numbers, strings,
    and arrays and objects of such values.  An object has each key once. *)
Fixpoint JSON_representable (v : JsVal) : bool :=
  match v with
  | JNull | JBool _ | JNumber _ | JString _ => true
  | JArray elems => forallb JSON_representable elems
  | JObject props =>
      forallb (fun kv => JSON_representable (snd kv)) props
      && bool_decide (NoDup (map fst props))
  | _ => false
  end.

(** The values [JSON.stringify] refuses: a BigInt or a reference back into
    the structure being serialized, at any depth below arrays and objects. *)
Fixpoint unserializable (v : JsVal) : bool :=
  match v with
  | JBigInt _ | JCircular _ => true
  | JArray elems => existsb unserializable elems
  | JObject props => existsb (fun kv => unserializable (snd kv)) props
  | _ => false
  end.

(** The values an array element is written as [null] for, although they are
    not [null]. *)
Definition written_as_null (v : JsVal) : bool :=
  match v with
  | JUndefined | JSymbol _ | JFunction _ | JNaN | JInfinity _ => true
  | _ => false
  end.

Definition null_if_dropped (v : JsVal) : JsVal :=
  if written_as_null v then JNull else v.

(** The own property [k] of an object. *)
Fixpoint get_property (k : string) (props : list (string * JsVal)) : option JsVal :=
  match props with
  | [] => None
  | (k', x) :: rest => if String.eqb k k' then Some x else get_property k rest
  end.

(** Structural (deep) equality, following the words of the specification:
    primitives are equal when they are the same value, arrays when they have
    the same length and deep-equal elements position by position, objects
    when they have the same keys with deep-equal values, whatever the order
    the keys were added in. *)
Fixpoint deep_equal (a b : JsVal) : bool :=
  match a, b with
  | JUndefined, JUndefined => true
  | JNull, JNull => true
  | JBool x, JBool y => Bool.eqb x y
  | JNumber x, JNumber y => x =? y
  | JNaN, JNaN => true
  | JInfinity x, JInfinity y => Bool.eqb x y
  | JBigInt x, JBigInt y => x =? y
  | JString x, JString y => String.eqb x y
  | JSymbol x, JSymbol y => String.eqb x y
  | JFunction x, JFunction y => String.eqb x y
  | JArray xs, JArray ys =>
      (fix elements (xs ys : list JsVal) : bool :=
         match xs, ys with
         | [], [] => true
         | x :: xs', y :: ys' => deep_equal x y && elements xs' ys'
         | _, _ => false
         end) xs ys
  | JObject ps, JObject qs =>
      (length ps =? length qs)%nat
      && (fix members (ps : list (string * JsVal)) : bool :=
            match ps with
            | [] => true
            | (k, x) :: ps' =>
                match get_property k qs with
                | Some y => deep_equal x y
                | None => false
                end && members ps'
            end) ps
  | JCircular x, JCircular y => (x =? y)%nat
  | _, _ => false
  end.

(** Two argument lists are deep-equal when the arrays holding them are. *)
Definition deep_equal_args (a b : list JsVal) : bool :=
  deep_equal (JArray a) (JArray b).

(** The text of a JSON-representable value. *)
Fixpoint json_text (v : JsVal) : string :=
  match v with
  | JBool true => "true"
  | JBool false => "false"
  | JString s => QuoteJSONString s
  | JNumber n => Number_toString n
  | JArray elems => "[" +:+ join "," (map json_text elems) +:+ "]"
  | JObject props =>
      "{" +:+ join "," (map (fun kv => QuoteJSONString (fst kv) +:+ ":" +:+ json_text (snd kv)) props)
      +:+ "}"
  | _ => "null"
  end.

(** ** Reading back what the serializer wrote *)

Definition is_digit (c : ascii) : bool :=
  match c with
  | "0"%char | "1"%char | "2"%char | "3"%char | "4"%char
  | "5"%char | "6"%char | "7"%char | "8"%char | "9"%char => true
  | _ => false
  end.

(** What may follow a serialized value: the end of the text or anything but
    a digit. *)
Definition no_digit_head (r : string) : Prop :=
  match r with
  | EmptyString => True
  | String c _ => is_digit c = false
  end.

Definition unhex_digit (c : ascii) : N :=
  (match c with
   | "0"%char => 0 | "1"%char => 1 | "2"%char => 2 | "3"%char => 3
   | "4"%char => 4 | "5"%char => 5 | "6"%char => 6 | "7"%char => 7
   | "8"%char => 8 | "9"%char => 9 | "a"%char => 10 | "b"%char => 11
   | "c"%char => 12 | "d"%char => 13 | "e"%char => 14 | _ => 15
   end)%N.

(** The inverse of [quote_unit]: the first code unit of a quoted text and
    what is left after it. *)
Definition unquote_unit (s : string) : option (ascii * string) :=
  match s with
  | EmptyString => None
  | String "\"%char (String "b"%char t) => Some ("008"%char, t)
  | String "\"%char (String "t"%char t) => Some ("009"%char, t)
  | String "\"%char (String "n"%char t) => Some ("010"%char, t)
  | String "\"%char (String "f"%char t) => Some ("012"%char, t)
  | String "\"%char (String "r"%char t) => Some ("013"%char, t)
  | String "\"%char (String "034"%char t) => Some ("034"%char, t)
  | String "\"%char (String "\"%char t) => Some ("\"%char, t)
  | String "\"%char (String "u"%char (String _ (String _ (String h (String l t))))) =>
      Some (ascii_of_N (16 * unhex_digit h + unhex_digit l), t)
  | String "\"%char _ => None
  | String c t => Some (c, t)
  end.

(** ** The environment: [astro:env/server] *)

Record Env : Type := {
  ASTRO_CACHE_DIR : string;
  ASTRO_CACHE_ENABLED : bool;
  ASTRO_CACHE_MAX_TIME_TO_LIVE : Z;
  ASTRO_CACHE_MIN_TIME_TO_STALE : Z
}.

(** [const FLAT_CACHE_TTL = ASTRO_CACHE_MAX_TIME_TO_LIVE * 2; // GC backstop] *)
Definition FLAT_CACHE_TTL (env : Env) : Z := ASTRO_CACHE_MAX_TIME_TO_LIVE env * 2.

(** The nullish coalescing of an optional option field: [a ?? b]. *)
Notation "a ?? b" := (default b a) (at level 45, left associativity).

(** A value is nullish when it is [null] or [undefined]. *)
Definition nullish (v : JsVal) : bool :=
  match v with JUndefined | JNull => true | _ => false end.

(** [v ?? null] on values. *)
Definition or_null (v : JsVal) : JsVal := if nullish v then JNull else v.

(** [v !== undefined]. *)
Definition not_undefined (v : JsVal) : bool :=
  match v with JUndefined => false | _ => true end.

(** [ToBoolean(v)] is false: the falsy values. *)
Definition falsy (v : JsVal) : bool :=
  match v with
  | JUndefined | JNull | JBool false | JNaN => true
  | JNumber n | JBigInt n => n =? 0
  | JString s => String.eqb s EmptyString
  | _ => false
  end.

(** ** The options of the two wrappers and of [new FlatCache] *)

Record SwrOptions : Type := {
  swr_name : string;
  swr_max : option Z
}.

Record MemoOptions : Type := {
  memo_name : string;
  memo_max : option Z;
  memo_ttl : option Z;
  memo_persist : option bool
}.

Record FlatCacheOptions : Type := {
  cacheId : string;
  cacheDir : string;
  ttl : Z;
  lruSize : Z
}.

(** The options [swr] constructs its [FlatCache] with. *)
Definition swr_flat_options (env : Env) (options : SwrOptions) : FlatCacheOptions :=
  {| cacheId := swr_name options;
     cacheDir := ASTRO_CACHE_DIR env;
     ttl := FLAT_CACHE_TTL env;
     (* SWR stores 2 keys per entry (value + __swr_time__ timestamp), so
        double the LRU size to avoid the timestamp key evicting the value
        key. *)
     lruSize := if (swr_max options ?? 0) =? 0 then 0 else (swr_max options ?? 0) * 2 |}.

(** The options [memo] constructs its [FlatCache] with. *)
Definition memo_flat_options (env : Env) (options : MemoOptions) : FlatCacheOptions :=
  {| cacheId := memo_name options;
     cacheDir := ASTRO_CACHE_DIR env;
     ttl := memo_ttl options ?? ASTRO_CACHE_MIN_TIME_TO_STALE env;
     lruSize := memo_max options ?? 0 |}.

(** [options.persist !== false] *)
Definition persist_of (options : MemoOptions) : bool :=
  match memo_persist options with
  | Some false => false
  | _ => true
  end.

(** ** Freshness of an SWR entry *)

Inductive Freshness : Type := Fresh | Stale | Expired.

(** Modelled from the spec: the freshness classes of section 4.4, decided by
    the stale-while-revalidate-cache package, which is not part of the
    sources.  [fresh] is [age < minTimeToStale], [stale] is
    [minTimeToStale <= age < maxTimeToLive], [expired] is
    [age >= maxTimeToLive]. *)
Definition classify (minTimeToStale maxTimeToLive age : Z) : Freshness :=
  if maxTimeToLive <=? age then Expired
  else if age <? minTimeToStale then Fresh
  else Stale.

(** Modelled from the spec: the TTL backstop of section 4.2, applied by the
    flat-cache package, which is not part of the sources.  An entry is
    physically dropped once its age has reached the store's [ttl]. *)
Definition backstop_fires (options : FlatCacheOptions) (age : Z) : bool :=
  ttl options <=? age.

(** ** LRU pressure on an SWR store *)

(** The two entries an SWR store keeps for a logical key. *)
Inductive SwrEntry : Type :=
| ValueEntry (key : string)
| TimeEntry (key : string).

#[global] Instance SwrEntry_eq_dec : EqDecision SwrEntry.
Proof. solve_decision. Defined.

(** Modelled from the spec: the LRU eviction of section 4.2, done inside the
    flat-cache package, which is not part of the sources.  [order] lists the
    entries of a store from the most to the least recently used; a read of a
    present entry and a write move the entry to the front; a write that
    takes the store over its capacity evicts the least recently used entry;
    capacity 0 is unlimited. *)
Definition lru_touch (e : SwrEntry) (order : list SwrEntry) : list SwrEntry :=
  if bool_decide (e ∈ order) then e :: filter (fun x => x <> e) order else order.

Definition lru_insert (capacity : Z) (e : SwrEntry) (order : list SwrEntry)
    : list SwrEntry :=
  let order' := e :: filter (fun x => x <> e) order in
  if (0 <? capacity) && (capacity <? Z.of_nat (length order'))
  then removelast order'
  else order'.

(** Modelled from the spec: how the SWR policy of section 4.4 uses the
    store: a lookup reads the value and then its timestamp, a refetch or a
    revalidation writes the value and then its timestamp. *)
Inductive SwrAccess : Type :=
| Lookup (key : string)
| Persist (key : string).

Definition lru_access (capacity : Z) (a : SwrAccess) (order : list SwrEntry)
    : list SwrEntry :=
  match a with
  | Lookup key => lru_touch (TimeEntry key) (lru_touch (ValueEntry key) order)
  | Persist key =>
      lru_insert capacity (TimeEntry key) (lru_insert capacity (ValueEntry key) order)
  end.

(** The store after a history of accesses, the oldest first. *)
Definition lru_run (capacity : Z) (history : list SwrAccess) : list SwrEntry :=
  fold_left (fun order a => lru_access capacity a order) history [].

(** The timestamp and the value of each key of [keys], side by side. *)
Definition pairs_of (keys : list string) : list SwrEntry :=
  flat_map (fun key => [TimeEntry key; ValueEntry key]) keys.

(** ** The world the wrappers run in *)

Section Cache.

Context {U : Type}.
Variable env : Env.

(** The part of the process and of the disk the cache touches:
    - [now]: the clock, [Date.now()];
    - [heap]: the in-memory entries of every [FlatCache] object, by the
      number the object got when it was constructed;
    - [next]: the number of the next object;
    - [disk]: the cache files, by path;
    - [user]: the state the producers close over;
    - [calls]: the producer invocations so far, oldest first, each with the
      name of the cache that made it and its arguments (a ghost field). *)
Record World : Type := {
  now : Z;
  heap : gmap nat (gmap string JsVal);
  next : nat;
  disk : gmap string (gmap string JsVal);
  user : U;
  calls : list (string * list JsVal)
}.

Definition with_heap (h : gmap nat (gmap string JsVal)) (w : World) : World :=
  {| now := now w; heap := h; next := next w; disk := disk w;
     user := user w; calls := calls w |}.

Definition with_disk (d : gmap string (gmap string JsVal)) (w : World) : World :=
  {| now := now w; heap := heap w; next := next w; disk := d;
     user := user w; calls := calls w |}.

(** Time passing between two calls. *)
Definition advance (dt : Z) (w : World) : World :=
  {| now := now w + dt; heap := heap w; next := next w; disk := disk w;
     user := user w; calls := calls w |}.

(** A computation: it ends normally or throws, and leaves a world either
    way. *)
Definition M (A : Type) : Type := World -> result A * World.

Definition ret {A} (a : A) : M A := fun w => (Ok a, w).

Definition throw {A} (e : JsError) : M A := fun w => (Throw e, w).

Definition bind {A B} (c : M A) (k : A -> M B) : M B :=
  fun w =>
    match c w with
    | (Ok a, w') => k a w'
    | (Throw e, w') => (Throw e, w')
    end.

(** A synchronous result inside a computation. *)
Definition lift {A} (r : result A) : M A := fun w => (r, w).

(** [try { c } catch { }] with the outcome kept as a value. *)
Definition attempt {A} (c : M A) : M (result A) :=
  fun w => let (r, w') := c w in (Ok r, w').

Definition Date_now : M Z := fun w => (Ok (now w), w).

End Cache.

Arguments World U : clear implicits.
Arguments M U A : clear implicits.

Notation "x <- c ;; k" := (bind c (fun x => k))
  (at level 100, c at next level, right associativity).
Notation "c ;;; k" := (bind c (fun _ => k))
  (at level 100, right associativity).

(** ** flat-cache and stale-while-revalidate-cache *)

Section Engine.

Context {U : Type}.
Variable env : Env.

#[local] Abbreviation World := (World U).
#[local] Abbreviation M := (M U).

(** A [FlatCache] object: its number in the heap and the options it was
    constructed with. *)
Record FlatCache : Type := {
  fc_id : nat;
  fc_options : FlatCacheOptions
}.

(** The entries a [FlatCache] object holds in memory. *)
Definition entries (fc : FlatCache) (w : World) : gmap string JsVal :=
  heap w !! fc_id fc ?? ∅.

(** The file of a store: one artifact per [{cacheDir, cacheId}] pair. *)
Definition file_path (fc : FlatCache) : string :=
  cacheDir (fc_options fc) +:+ "/" +:+ cacheId (fc_options fc).

Definition set_entries (fc : FlatCache) (items : gmap string JsVal) (w : World) : World :=
  with_heap (<[fc_id fc := items]> (heap w)) w.

(** Modelled from the spec: the operations of the persistent store of
    section 4.2, which the flat-cache package implements and the sources
    only call.  Entries are kept until they are removed or cleared, and the
    operations are taken where the package reports no error; the LRU
    eviction and the TTL backstop have models of their own, [lru_insert]
    and [backstop_fires]. *)
Definition new_FlatCache (options : FlatCacheOptions) (w : World) : FlatCache * World :=
  let fc := {| fc_id := next w; fc_options := options |} in
  (fc, {| now := now w; heap := <[next w := ∅]> (heap w); next := S (next w);
          disk := disk w; user := user w; calls := calls w |}).

(** [load()]: populate the memory from the file; a missing file gives
    nothing. *)
Definition FlatCache_load (fc : FlatCache) : M unit :=
  fun w => (Ok tt, set_entries fc ((disk w !! file_path fc ?? ∅) ∪ entries fc w) w).

(** [get(key)]: the value, or [undefined] when there is none. *)
Definition FlatCache_get (fc : FlatCache) (key : string) : M JsVal :=
  fun w => (Ok (entries fc w !! key ?? JUndefined), w).

Definition FlatCache_set (fc : FlatCache) (key : string) (value : JsVal) : M unit :=
  fun w => (Ok tt, set_entries fc (<[key := value]> (entries fc w)) w).

Definition FlatCache_removeKey (fc : FlatCache) (key : string) : M unit :=
  fun w => (Ok tt, set_entries fc (delete key (entries fc w)) w).

Definition FlatCache_clear (fc : FlatCache) : M unit :=
  fun w => (Ok tt, set_entries fc ∅ w).

(** [save()]: flush the memory to the file. *)
Definition FlatCache_save (fc : FlatCache) : M unit :=
  fun w => (Ok tt, with_disk (<[file_path fc := entries fc w]> (disk w)) w).

(** The storage adapter [swr] hands to the SWR package. *)
Record Storage : Type := {
  getItem : string -> M JsVal;
  setItem : string -> JsVal -> M unit;
  removeItem : string -> M unit
}.

Record SwrConfig : Type := {
  storage : Storage;
  minTimeToStale : Z;
  maxTimeToLive : Z
}.

(** What the SWR cache answers: the value and how it was found ([None] for a
    miss). *)
Record SwrResult : Type := {
  value : JsVal;
  status : option Freshness
}.

(** The key of the timestamp that goes with a value. *)
Definition timeKey (key : string) : string := key +:+ "__swr_time__".

(** Modelled from the spec: the state machine of section 4.4, which the
    stale-while-revalidate-cache package implements and the sources only
    call.  A missing value or a missing timestamp is a miss; a fresh entry is
    returned as it is; a stale entry is returned and revalidated, the store
    being overwritten only on success and a failure of the producer being
    swallowed (the revalidation is run to completion before the next call);
    an expired entry is refetched like a miss. *)
Definition createStaleWhileRevalidateCache (config : SwrConfig)
    (key : string) (fn : M JsVal) : M SwrResult :=
  cachedValue <- getItem (storage config) key ;;
  cachedAt <- getItem (storage config) (timeKey key) ;;
  t <- Date_now ;;
  let persist (v : JsVal) : M unit :=
    setItem (storage config) key v ;;;
    setItem (storage config) (timeKey key) (JNumber t) in
  let refetch (found : option Freshness) : M SwrResult :=
    v <- fn ;;
    persist v ;;;
    ret {| value := v; status := found |} in
  match cachedAt with
  | JNumber storedAt =>
      if nullish cachedValue then refetch None
      else
        match classify (minTimeToStale config) (maxTimeToLive config) (t - storedAt) with
        | Fresh => ret {| value := cachedValue; status := Some Fresh |}
        | Stale =>
            r <- attempt fn ;;
            match r with
            | Ok v => persist v
            | Throw _ => ret tt
            end ;;;
            ret {| value := cachedValue; status := Some Stale |}
        | Expired => refetch (Some Expired)
        end
  | _ => refetch None
  end.

(** ** [src/cache.ts] *)

(** The wrapped function: an opaque asynchronous producer.  It sees its
    arguments and the state it closes over, and resolves or rejects. *)
Definition Producer : Type := list JsVal -> U -> result JsVal * U.

(** The call [fn(...args)] awaited, made by the cache called [name]. *)
Definition invoke (name : string) (fn : Producer) (args : list JsVal) : M JsVal :=
  fun w =>
    let (r, u) := fn args (user w) in
    (r, {| now := now w; heap := heap w; next := next w; disk := disk w;
           user := u; calls := calls w ++ [(name, args)] |}).

(** [type Clearable = { clear(): void }] *)
Record Clearable : Type := {
  clear : M unit
}.

(** [((...args: Args) => Promise<V>) & Clearable] *)
Record Cached : Type := {
  call : list JsVal -> M JsVal;
  clearable :> Clearable
}.

(** The module: [const caches: Clearable[] = []] and the world. *)
Record State : Type := {
  caches : list Clearable;
  world : World
}.

Definition swr (fn : Producer) (options : SwrOptions) (st : State) : Cached * State :=
  if negb (ASTRO_CACHE_ENABLED env) then
    ({| call := fun args => invoke (swr_name options) fn args;
        clearable := {| clear := ret tt |} |}, st)
  else
    let (flatCache, w) := new_FlatCache (swr_flat_options env options) (world st) in
    let w := snd (FlatCache_load flatCache w) in
    let storage :=
      {| getItem := fun key => v <- FlatCache_get flatCache key ;; ret (or_null v);
         setItem := fun key value =>
                      FlatCache_set flatCache key value ;;; FlatCache_save flatCache;
         removeItem := fun key =>
                         FlatCache_removeKey flatCache key ;;; FlatCache_save flatCache |} in
    let swrCache :=
      createStaleWhileRevalidateCache
        {| storage := storage;
           minTimeToStale := ASTRO_CACHE_MIN_TIME_TO_STALE env;
           maxTimeToLive := ASTRO_CACHE_MAX_TIME_TO_LIVE env |} in
    let cached :=
      {| call := fun args =>
                   key <- lift (deriveKey args) ;;
                   result <- swrCache key (invoke (swr_name options) fn args) ;;
                   ret (value result);
         clearable :=
           {| clear := FlatCache_clear flatCache ;;; FlatCache_save flatCache |} |} in
    (cached, {| caches := caches st ++ [clearable cached]; world := w |}).

Definition memo (fn : Producer) (options : MemoOptions) (st : State) : Cached * State :=
  if negb (ASTRO_CACHE_ENABLED env) then
    ({| call := fun args => invoke (memo_name options) fn args;
        clearable := {| clear := ret tt |} |}, st)
  else
    let persist := persist_of options in
    let (flatCache, w) := new_FlatCache (memo_flat_options env options) (world st) in
    let w := if persist then snd (FlatCache_load flatCache w) else w in
    let cached :=
      {| call := fun args =>
                   key <- lift (deriveKey args) ;;
                   existing <- FlatCache_get flatCache key ;;
                   if not_undefined existing then ret existing
                   else
                     value <- invoke (memo_name options) fn args ;;
                     FlatCache_set flatCache key value ;;;
                     (if persist then FlatCache_save flatCache else ret tt) ;;;
                     ret value;
         clearable :=
           {| clear := FlatCache_clear flatCache ;;;
                       (if persist then FlatCache_save flatCache else ret tt) |} |} in
    (cached, {| caches := caches st ++ [clearable cached]; world := w |}).

(** [for (const cache of caches) { cache.clear(); }] *)
Fixpoint clear_each (l : list Clearable) : M unit :=
  match l with
  | [] => ret tt
  | cache :: rest => clear cache ;;; clear_each rest
  end.

Definition clearAllCaches (st : State) : result unit * State :=
  let (r, w) := clear_each (caches st) (world st) in
  (r, {| caches := caches st; world := w |}).

(** ** Observing runs *)

(** The store a wrapper created in state [st] constructs. *)
Definition swr_store (options : SwrOptions) (st : State) : FlatCache :=
  {| fc_id := next (world st); fc_options := swr_flat_options env options |}.

Definition memo_store (options : MemoOptions) (st : State) : FlatCache :=
  {| fc_id := next (world st); fc_options := memo_flat_options env options |}.

(** Calls made one after the other, each awaited before the next; a call
    that rejects does not stop the later ones. *)
Fixpoint run_calls (f : list JsVal -> M JsVal) (argss : list (list JsVal))
    (w : World) : list (result JsVal) * World :=
  match argss with
  | [] => ([], w)
  | args :: rest =>
      let (r, w1) := f args w in
      let (rs, w2) := run_calls f rest w1 in
      (r :: rs, w2)
  end.

(** The clears of [l] ran one after the other from [w] to [w'], each
    returning normally. *)
Inductive cleared_in_order : list Clearable -> World -> World -> Prop :=
| cleared_nil (w : World) : cleared_in_order [] w w
| cleared_cons (cache : Clearable) (rest : list Clearable) (w w1 w2 : World) :
    clear cache w = (Ok tt, w1) ->
    cleared_in_order rest w1 w2 ->
    cleared_in_order (cache :: rest) w w2.

(** A registry entry made by [swr] or [memo]: its [clear] empties one store
    and, when the store persists, saves it. *)
Definition store_clear (fc : FlatCache) (persist : bool) : Clearable :=
  {| clear := FlatCache_clear fc ;;;
              (if persist then FlatCache_save fc else ret tt) |}.

Inductive made_by_wrapper : Clearable -> Prop :=
| made_by_store (fc : FlatCache) (persist : bool) :
    made_by_wrapper (store_clear fc persist).

(** The producer run on its own, once for each argument list. *)
Fixpoint produce_all (fn : Producer) (argss : list (list JsVal)) (u : U)
    : list (result JsVal) * U :=
  match argss with
  | [] => ([], u)
  | args :: rest =>
      let (r, u1) := fn args u in
      let (rs, u2) := produce_all fn rest u1 in
      (r :: rs, u2)
  end.

(** The world after the producer was called by the cache [name], once for
    each argument list of [argss], and left the user state [u]. *)
Definition after_calls (name : string) (argss : list (list JsVal)) (u : U)
    (w : World) : World :=
  {| now := now w; heap := heap w; next := next w; disk := disk w;
     user := u; calls := calls w ++ map (fun args => (name, args)) argss |}.

(** In world [w] the cache treats every key as absent: a call invokes the
    producer, once, and answers with the outcome of that invocation. *)
Definition refetches (name : string) (fn : Producer) (cached : Cached) (w : World) : Prop :=
  forall args key,
    deriveKey args = Ok key ->
    fst (call cached args w) = fst (fn args (user w))
    /\ calls (snd (call cached args w)) = calls w ++ [(name, args)]
    /\ user (snd (call cached args w)) = snd (fn args (user w)).

(** [cached] is what [swr] or [memo] returned for [fn] under the name
    [name], taking the module from [st] to [st']. *)
Inductive wraps (fn : Producer) (name : string) (st : State) (cached : Cached)
    (st' : State) : Prop :=
| wraps_swr (options : SwrOptions) :
    swr_name options = name ->
    swr fn options st = (cached, st') ->
    wraps fn name st cached st'
| wraps_memo (options : MemoOptions) :
    memo_name options = name ->
    memo fn options st = (cached, st') ->
    wraps fn name st cached st'.

End Engine.

(** ** Concrete instances *)

(** The defaults the integration registers, with caching enabled. *)
Definition demo_env : Env :=
  {| ASTRO_CACHE_DIR := "node_modules/.cache/astro-cache";
     ASTRO_CACHE_ENABLED := true;
     ASTRO_CACHE_MAX_TIME_TO_LIVE := 1000 * 60 * 60 * 24 * 7;
     ASTRO_CACHE_MIN_TIME_TO_STALE := 1000 * 60 * 30 |}.

(** The same with caching disabled, as under [astro dev]. *)
Definition demo_env_disabled : Env :=
  {| ASTRO_CACHE_DIR := "/tmp/unused";
     ASTRO_CACHE_ENABLED := false;
     ASTRO_CACHE_MAX_TIME_TO_LIVE := 1000 * 60 * 60 * 24 * 7;
     ASTRO_CACHE_MIN_TIME_TO_STALE := 1000 * 60 * 30 |}.

(** [let version = 1; const fn = async () => ({ version: version++ })] *)
Definition versioned : @Producer Z :=
  fun _ version => (Ok (JObject [("version", JNumber version)]), version + 1).

(** [let calls = 0; const fn = async () => { calls++; }]: resolves to
    [undefined]. *)
Definition resolves_undefined : @Producer Z :=
  fun _ count => (Ok JUndefined, count + 1).

(** A process that has just started, with nothing on disk. *)
Definition empty_world : World Z :=
  {| now := 0; heap := ∅; next := 0; disk := ∅; user := 1; calls := [] |}.

Definition empty_state : @State Z :=
  {| caches := []; world := empty_world |}.

Definition demo_memo_options : MemoOptions :=
  {| memo_name := "memo"; memo_max := None; memo_ttl := None; memo_persist := None |}.

Definition demo_swr_options : SwrOptions :=
  {| swr_name := "swr"; swr_max := Some 100 |}.

(** An instance whose [clear()] throws; what makes a real [clear()] throw
    lies in the store package, outside the sources. *)
Definition failing_instance : @Cached Z :=
  {| call := fun _ => ret JUndefined;
     clearable := {| clear := throw (TypeError "clear failed") |} |}.

(** The world of a memo cache whose store holds [v] under the key of the
    empty argument list. *)
Definition world_holding (v : JsVal) : World Z :=
  {| now := 0; heap := {[ 0%nat := {[ "_" := v ]} ]}; next := 1; disk := ∅;
     user := 1; calls := [] |}.

(** Two deep-equal argument lists: one object, its properties added in two
    orders. *)
Definition args_a_then_b : list JsVal :=
  [JObject [("a", JNumber 1); ("b", JNumber 2)]].

Definition args_b_then_a : list JsVal :=
  [JObject [("b", JNumber 2); ("a", JNumber 1)]].

(** ** The storage adapter and the disk *)

Section Adapter.

Context {U : Type}.

(** The [storage] object [swr] builds over its [FlatCache]:
    [getItem] is [flatCache.get(key) ?? null], [setItem] and [removeItem]
    change the memory and save it. *)
Definition swr_storage (flatCache : FlatCache) : @Storage U :=
  {| getItem := fun key => v <- FlatCache_get flatCache key ;; ret (or_null v);
     setItem := fun key value =>
                  FlatCache_set flatCache key value ;;; FlatCache_save flatCache;
     removeItem := fun key =>
                     FlatCache_removeKey flatCache key ;;; FlatCache_save flatCache |}.

(** The file of a store holds what its memory holds. *)
Definition synced (fc : FlatCache) (w : World U) : Prop :=
  disk w !! file_path fc ?? ∅ = entries fc w.

(** The entries a cache file gives back as they were written: those whose
    values are JSON-representable. *)
Definition storable (items : gmap string JsVal) : bool :=
  forallb (fun kv => JSON_representable (snd kv)) (map_to_list items).

(** From [w] to [w'] nothing changed but the memory and the file of [fc],
    the state of the producers and the record of their calls: the clock, the
    allocation of stores, the memory of every other store and every other
    file are as they were. *)
Definition touches_only (fc : FlatCache) (w w' : World U) : Prop :=
  now w' = now w
  /\ next w' = next w
  /\ (forall fc', fc_id fc' <> fc_id fc -> entries fc' w' = entries fc' w)
  /\ (forall path, path <> file_path fc -> disk w' !! path = disk w !! path).

(** From [w] to [w'] the file of [fc] stayed level with its memory. *)
Definition keeps_synced (fc : FlatCache) (w w' : World U) : Prop :=
  synced fc w -> synced fc w'.

(** Every run of [c] takes a world to one that [R] relates to it. *)
Definition relates (R : World U -> World U -> Prop) {A} (c : M U A) : Prop :=
  forall w, R w (snd (c w)).

End Adapter.

(** ** Module states a program reaches *)

Section Reaches.

Context {U : Type}.
Variable env : Env.

(** A store is at rest: nothing in its memory and, when it persists, an
    empty file. *)
Definition at_rest (fc : FlatCache) (persist : bool) (w : World U) : Prop :=
  heap w !! fc_id fc = Some ∅
  /\ (persist = true -> disk w !! file_path fc = Some ∅).

Definition entry_at_rest (w : World U) (c : @Clearable U) : Prop :=
  exists fc persist, c = store_clear fc persist /\ at_rest fc persist w.

(** The module states a program reaches from [st0]: it wraps functions with
    [swr] and [memo], and in between the world moves on as the wrapped
    functions are called and time passes.  The registry is touched by the
    wrappers only: [caches] is not exported. *)
Inductive reaches (st0 : @State U) : @State U -> Prop :=
| reaches_start : reaches st0 st0
| reaches_wrap (st : State) (fn : Producer) (name : string) (cached : Cached)
    (st' : State) :
    reaches st0 st ->
    wraps env fn name st cached st' ->
    reaches st0 st'
| reaches_run (st : State) (w : World U) :
    reaches st0 st ->
    reaches st0 {| caches := caches st; world := w |}.

End Reaches.

(** ** The integration: [astroCache] *)

(** [interface AstroCacheOptions { devCaching?: boolean }] *)
Record AstroCacheOptions : Type := {
  devCaching : option bool
}.

Definition DEFAULT_CACHE_DIR : string := "node_modules/.cache/astro-cache".
Definition DEFAULT_MIN_TIME_TO_STALE : Z := 1000 * 60 * 30.
Definition DEFAULT_MAX_TIME_TO_LIVE : Z := 1000 * 60 * 60 * 24 * 7.

(** [options?.devCaching === true] *)
Definition devCaching_is_true (options : option AstroCacheOptions) : bool :=
  match options with
  | Some o => match devCaching o with Some true => true | _ => false end
  | None => false
  end.

(** [const enabled = command !== "dev" || options?.devCaching === true] in
    the hook [astro:config:setup]. *)
Definition astroCache_enabled (command : string)
    (options : option AstroCacheOptions) : bool :=
  negb (String.eqb command "dev") || devCaching_is_true options.

(** The defaults of the schema the hook registers: the values
    [astro:env/server] gives when the environment sets none of the four
    variables. *)
Definition astroCache_defaults (command : string)
    (options : option AstroCacheOptions) : Env :=
  {| ASTRO_CACHE_DIR := DEFAULT_CACHE_DIR;
     ASTRO_CACHE_ENABLED := astroCache_enabled command options;
     ASTRO_CACHE_MAX_TIME_TO_LIVE := DEFAULT_MAX_TIME_TO_LIVE;
     ASTRO_CACHE_MIN_TIME_TO_STALE := DEFAULT_MIN_TIME_TO_STALE |}.

(** ** What the key keeps of an argument *)

(** Every object of the value lists each of its keys once, as the objects
    of the language do. *)
Fixpoint well_keyed (v : JsVal) : bool :=
  match v with
  | JArray elems => forallb well_keyed elems
  | JObject props =>
      forallb (fun kv => well_keyed (snd kv)) props
      && bool_decide (NoDup (map fst props))
  | _ => true
  end.

(** The JSON image of a value: what [JSON.stringify] keeps of it.  [None] is
    for the values it has no text for; inside an array they are written as
    [null], inside an object their property is left out; [NaN] and the
    infinities are written as [null]. *)
Fixpoint json_image (v : JsVal) : option JsVal :=
  match v with
  | JUndefined | JSymbol _ | JFunction _ => None
  | JNaN | JInfinity _ => Some JNull
  | JArray elems => Some (JArray (map (fun x => json_image x ?? JNull) elems))
  | JObject props =>
      Some (JObject (omap (fun kv => match json_image (snd kv) with
                                     | Some x => Some (fst kv, x)
                                     | None => None
                                     end) props))
  | _ => Some v
  end.

(** The image of an argument, an element of the array of arguments. *)
Definition argument_image (v : JsVal) : JsVal := json_image v ?? JNull.

(** ** More concrete instances *)

(** [const fn = async () => { throw "down" }]: a producer that rejects. *)
Definition rejects : @Producer Z :=
  fun _ count => (Throw (Rejected (JString "down")), count + 1).

Definition memo_options_without_persist : MemoOptions :=
  {| memo_name := "memo"; memo_max := None; memo_ttl := None;
     memo_persist := Some false |}.

(** A new process over the disk that [w] holds: no store in memory yet. *)
Definition restarted (w : World Z) : @State Z :=
  {| caches := [];
     world := {| now := now w; heap := ∅; next := 0; disk := disk w;
                 user := 1; calls := [] |} |}.
(** ** Strings *)

Lemma append_assoc (a b c : string) : (a +:+ b) +:+ c = a +:+ (b +:+ c).
Proof. induction a as [|x a IH]; simpl; [reflexivity | now rewrite IH]. Qed.

Lemma append_nil_r (a : string) : a +:+ EmptyString = a.
Proof. induction a as [|x a IH]; simpl; [reflexivity | now rewrite IH]. Qed.

Lemma unquote_quote_unit (c : ascii) (t : string) :
  unquote_unit (quote_unit c +:+ t) = Some (c, t).
Proof. destruct c as [[] [] [] [] [] [] [] []]; reflexivity. Qed.

Lemma quote_unit_head (c : ascii) :
  exists h t, quote_unit c = String h t /\ h <> dquote.
Proof.
  destruct c as [[] [] [] [] [] [] [] []];
    (eexists; eexists; split; [reflexivity | discriminate]).
Qed.

Lemma quote_units_inj (s1 s2 r1 r2 : string) :
  quote_units s1 +:+ String dquote r1 = quote_units s2 +:+ String dquote r2 ->
  s1 = s2 /\ r1 = r2.
Proof.
  revert s2; induction s1 as [|c1 s1 IH]; intros [|c2 s2]; simpl; intros H.
  - injection H as ->. auto.
  - destruct (quote_unit_head c2) as (h & t & E & Hh).
    rewrite E in H. simpl in H. injection H as H _. congruence.
  - destruct (quote_unit_head c1) as (h & t & E & Hh).
    rewrite E in H. simpl in H. injection H as H _. congruence.
  - rewrite !append_assoc in H.
    apply (f_equal unquote_unit) in H.
    rewrite !unquote_quote_unit in H. injection H as -> H.
    destruct (IH _ H) as [-> ->]. auto.
Qed.

Lemma QuoteJSONString_inj (s1 s2 r1 r2 : string) :
  QuoteJSONString s1 +:+ r1 = QuoteJSONString s2 +:+ r2 -> s1 = s2 /\ r1 = r2.
Proof.
  unfold QuoteJSONString. cbn [append]. rewrite !append_assoc. cbn [append].
  intros H. injection H as H. now apply quote_units_inj.
Qed.

(** ** Numbers *)

Lemma string_of_uint_inj (d1 : uint) :
  forall (d2 : uint) (r1 r2 : string),
    NilEmpty.string_of_uint d1 +:+ r1 = NilEmpty.string_of_uint d2 +:+ r2 ->
    no_digit_head r1 -> no_digit_head r2 -> d1 = d2 /\ r1 = r2.
Proof.
  induction d1; intros [] r1 r2 H H1 H2; simpl in H;
    try discriminate H;
    try (injection H as H; destruct (IHd1 _ _ _ H H1 H2) as [-> ->]; now auto);
    try (subst; simpl in *; now auto; discriminate).
  all: subst; simpl in *; discriminate.
Qed.

Lemma to_int_Pos_nonnil (n : Z) (d : uint) : Z.to_int n = Pos d -> d <> Nil.
Proof.
  destruct n as [|p|p]; simpl; intros H; try discriminate H; injection H as <-.
  - discriminate.
  - apply DecimalPos.Unsigned.to_uint_nonnil.
Qed.

Lemma string_of_uint_head (d : uint) :
  d <> Nil ->
  exists c s, NilEmpty.string_of_uint d = String c s /\ is_digit c = true.
Proof. destruct d; intros H; try congruence; simpl; eauto. Qed.

Lemma Number_toString_head (n : Z) :
  exists c s, Number_toString n = String c s /\ (is_digit c = true \/ c = "-"%char).
Proof.
  unfold Number_toString. destruct (Z.to_int n) as [d|d] eqn:E; simpl.
  - destruct (string_of_uint_head d (to_int_Pos_nonnil _ _ E)) as (c & s & -> & Hc).
    eauto.
  - eauto.
Qed.

Lemma Number_toString_inj (n1 n2 : Z) (r1 r2 : string) :
  Number_toString n1 +:+ r1 = Number_toString n2 +:+ r2 ->
  no_digit_head r1 -> no_digit_head r2 -> n1 = n2 /\ r1 = r2.
Proof.
  unfold Number_toString.
  destruct (Z.to_int n1) as [d1|d1] eqn:E1, (Z.to_int n2) as [d2|d2] eqn:E2;
    simpl; intros H H1 H2.
  - destruct (string_of_uint_inj _ _ _ _ H H1 H2) as [-> ->].
    split; [apply to_int_inj; congruence | reflexivity].
  - destruct (string_of_uint_head d1 (to_int_Pos_nonnil _ _ E1)) as (c & s & E & Hc).
    rewrite E in H. simpl in H. injection H as -> _. discriminate Hc.
  - destruct (string_of_uint_head d2 (to_int_Pos_nonnil _ _ E2)) as (c & s & E & Hc).
    rewrite E in H. simpl in H. injection H as <- _. discriminate Hc.
  - injection H as H. destruct (string_of_uint_inj _ _ _ _ H H1 H2) as [-> ->].
    split; [apply to_int_inj; congruence | reflexivity].
Qed.

(** ** Comma-separated items *)

Lemma join_cons_app (p : string) (rest : list string) (t : string) :
  join "," (p :: rest) +:+ t =
  p +:+ match rest with [] => t | _ :: _ => "," +:+ join "," rest +:+ t end.
Proof.
  destruct rest as [|q rest]; [reflexivity|].
  change (join "," (p :: q :: rest)) with (p +:+ "," +:+ join "," (q :: rest)).
  now rewrite !append_assoc.
Qed.

Lemma forallb_Forall {A} (g : A -> bool) (l : list A) :
  forallb g l = true -> Forall (fun x => g x = true) l.
Proof.
  intros H. apply List.Forall_forall. now apply forallb_forall.
Qed.

Section join_inj.
Context {A : Type} (f : A -> string) (close : ascii) (Q : A -> Prop).
Hypothesis close_not_digit : is_digit close = false.
Hypothesis close_not_comma : close <> ","%char.
Hypothesis f_head : forall x, Q x -> exists c s, f x = String c s /\ c <> close.

Lemma join_inj (l1 : list A) :
  Forall Q l1 ->
  Forall (fun x => Q x -> forall y t1 t2, Q y ->
            f x +:+ t1 = f y +:+ t2 -> no_digit_head t1 -> no_digit_head t2 ->
            x = y /\ t1 = t2) l1 ->
  forall l2 r1 r2, Forall Q l2 ->
    join "," (map f l1) +:+ String close r1 = join "," (map f l2) +:+ String close r2 ->
    l1 = l2 /\ r1 = r2.
Proof.
  induction l1 as [|x1 l1 IH]; intros HQ1 Hinj [|x2 l2] r1 r2 HQ2 H.
  - simpl in H. injection H as ->. auto.
  - exfalso. cbn [map] in H. rewrite join_cons_app in H.
    inversion HQ2 as [|? ? Hx2 _]; subst.
    destruct (f_head _ Hx2) as (c & s & E & Hc).
    rewrite E in H. simpl in H. injection H as H _. congruence.
  - exfalso. cbn [map] in H. rewrite join_cons_app in H.
    inversion HQ1 as [|? ? Hx1 _]; subst.
    destruct (f_head _ Hx1) as (c & s & E & Hc).
    rewrite E in H. simpl in H. injection H as H _. congruence.
  - cbn [map] in H. rewrite !join_cons_app in H.
    inversion HQ1 as [|? ? Hx1 HQ1']; subst.
    inversion HQ2 as [|? ? Hx2 HQ2']; subst.
    inversion Hinj as [|? ? Hx Hinj']; subst.
    apply (Hx Hx1 x2) in H; [|assumption| |].
    + destruct H as [-> H].
      destruct l1 as [|a l1], l2 as [|b l2]; cbn [map] in H.
      * injection H as ->. auto.
      * simpl in H. injection H as H _. congruence.
      * simpl in H. injection H as H _. congruence.
      * simpl in H. injection H as H.
        change (join "," (f a :: map f l1) +:+ String close r1
                = join "," (f b :: map f l2) +:+ String close r2) in H.
        destruct (IH HQ1' Hinj' (b :: l2) r1 r2 HQ2' H) as [-> ->]. auto.
    + destruct l1; simpl; [exact close_not_digit | reflexivity].
    + destruct l2; simpl; [exact close_not_digit | reflexivity].
Qed.
End join_inj.

(** ** The serializer on JSON-representable values *)

Lemma json_text_head (v : JsVal) :
  JSON_representable v = true ->
  exists c s, json_text v = String c s /\ c <> "]"%char /\ c <> "}"%char.
Proof.
  destruct v as [| |[]|n| | | |s| | |l|l|]; simpl; intros R; try discriminate R;
    try (do 2 eexists; split; [reflexivity | split; discriminate]).
  destruct (Number_toString_head n) as (c & s & -> & [Hc| ->]).
  - do 2 eexists; split; [reflexivity|]. split; intros ->; discriminate Hc.
  - do 2 eexists; split; [reflexivity|]. split; discriminate.
Qed.

Lemma json_text_inj (v1 : JsVal) :
  JSON_representable v1 = true ->
  forall v2 r1 r2, JSON_representable v2 = true ->
    json_text v1 +:+ r1 = json_text v2 +:+ r2 ->
    no_digit_head r1 -> no_digit_head r2 ->
    v1 = v2 /\ r1 = r2.
Proof.
  induction v1 as [| |b1|n1| | | |s1| | |l1 IH|l1 IH|] using JsVal_deep_ind;
    intros R1 v2 r1 r2 R2 H N1 N2; try discriminate R1;
    destruct v2 as [| |b2|n2| | | |s2| | |l2|l2|]; try discriminate R2.
  all: try (destruct (Number_toString_head n1) as (c1 & t1 & E1 & Hc1));
       try (destruct (Number_toString_head n2) as (c2 & t2 & E2 & Hc2)).
  all: try destruct b1; try destruct b2.
  all: try (simpl in H; discriminate H).
  all: try (simpl in H; injection H as ->; now auto).
  all: try (simpl in H; rewrite ?E1, ?E2 in H; simpl in H; injection H as H _;
            subst; first [destruct Hc1 as [Hc1|Hc1] | destruct Hc2 as [Hc2|Hc2]];
            discriminate).
  - (* numbers *)
    clear E1 E2 Hc1 Hc2. simpl in H.
    destruct (Number_toString_inj _ _ _ _ H N1 N2) as [-> ->]. auto.
  - (* strings *)
    simpl json_text in H.
    destruct (QuoteJSONString_inj _ _ _ _ H) as [-> ->]. auto.
  - (* arrays *)
    simpl in R1, R2. simpl json_text in H. simpl in H.
    rewrite !append_assoc in H. simpl in H. injection H as H.
    destruct (join_inj json_text "]"%char (fun x => JSON_representable x = true)
                eq_refl ltac:(discriminate)
                ltac:(intros x Hx; destruct (json_text_head x Hx) as (c & s & E & Hc & _); eauto)
                l1 (forallb_Forall _ _ R1) IH l2 r1 r2 (forallb_Forall _ _ R2) H)
      as [-> ->].
    auto.
  - (* objects *)
    simpl in R1, R2.
    apply andb_prop in R1 as [R1 _]. apply andb_prop in R2 as [R2 _].
    simpl json_text in H. simpl in H.
    rewrite !append_assoc in H. simpl in H. injection H as H.
    destruct (join_inj
                (fun kv : string * JsVal =>
                   QuoteJSONString (fst kv) +:+ ":" +:+ json_text (snd kv))
                "}"%char (fun kv => JSON_representable (snd kv) = true)
                eq_refl ltac:(discriminate)
                ltac:(intros x Hx; do 2 eexists; split; [reflexivity | discriminate])
                l1 (forallb_Forall _ _ R1)) with (l2 := l2) (r1 := r1) (r2 := r2)
      as [-> ->]; auto using forallb_Forall.
    eapply List.Forall_impl; [|exact IH].
    intros [k1 x1] IHx Hx1 [k2 x2] t1 t2 Hx2 E Ht1 Ht2. cbn [fst snd] in *.
    rewrite !append_assoc in E.
    apply QuoteJSONString_inj in E as [-> E].
    cbn [append] in E. injection E as E.
    destruct (IHx Hx1 _ _ _ Hx2 E Ht1 Ht2) as [-> ->]. auto.
Qed.

Lemma SerializeJSONProperty_array (elems : list JsVal) :
  SerializeJSONProperty (JArray elems) =
  match SerializeJSONArray_elements elems with
  | Throw e => Throw e
  | Ok partial => Ok (Some ("[" +:+ join "," partial +:+ "]"))
  end.
Proof. reflexivity. Qed.

Lemma SerializeJSONProperty_object (props : list (string * JsVal)) :
  SerializeJSONProperty (JObject props) =
  match SerializeJSONObject_members props with
  | Throw e => Throw e
  | Ok partial => Ok (Some ("{" +:+ join "," partial +:+ "}"))
  end.
Proof. reflexivity. Qed.

Lemma serialize_representable (v : JsVal) :
  JSON_representable v = true ->
  SerializeJSONProperty v = Ok (Some (json_text v)).
Proof.
  induction v as [| |b|n| | | |s| | |l IH|l IH|] using JsVal_deep_ind;
    intros R; try discriminate R; try reflexivity.
  - destruct b; reflexivity.
  - rewrite SerializeJSONProperty_array. simpl in R.
    assert (E : SerializeJSONArray_elements l = Ok (map json_text l)).
    { induction IH as [|x l Hx _ IHl]; [reflexivity|].
      simpl in R. apply andb_prop in R as [Rx Rl].
      cbn [SerializeJSONArray_elements map]. now rewrite (Hx Rx), (IHl Rl). }
    now rewrite E.
  - rewrite SerializeJSONProperty_object. simpl in R.
    apply andb_prop in R as [R _].
    assert (E : SerializeJSONObject_members l =
                Ok (map (fun kv => QuoteJSONString (fst kv) +:+ ":" +:+ json_text (snd kv)) l)).
    { induction IH as [|[k x] l Hx _ IHl]; [reflexivity|].
      simpl in R. apply andb_prop in R as [Rx Rl].
      cbn [SerializeJSONObject_members map fst snd]. cbn [snd] in Hx.
      now rewrite (Hx Rx), (IHl Rl). }
    now rewrite E.
Qed.

(** [JSON.stringify] throws exactly on the values that hold a BigInt or a
    circular reference, and then it throws a TypeError. *)
Lemma serialize_throws (v : JsVal) :
  is_throw (SerializeJSONProperty v) = unserializable v.
Proof.
  induction v as [| |b|n| | | |s| | |l IH|l IH|] using JsVal_deep_ind;
    try reflexivity.
  - destruct b; reflexivity.
  - rewrite SerializeJSONProperty_array. cbn [unserializable].
    assert (E : is_throw (SerializeJSONArray_elements l) = existsb unserializable l).
    { induction IH as [|x l Hx _ IHl]; [reflexivity|].
      cbn [SerializeJSONArray_elements existsb]. rewrite <- Hx, <- IHl.
      destruct (SerializeJSONProperty x); [|reflexivity].
      destruct (SerializeJSONArray_elements l); reflexivity. }
    rewrite <- E. destruct (SerializeJSONArray_elements l); reflexivity.
  - rewrite SerializeJSONProperty_object. cbn [unserializable].
    assert (E : is_throw (SerializeJSONObject_members l)
                = existsb (fun kv => unserializable (snd kv)) l).
    { induction IH as [|[k x] l Hx _ IHl]; [reflexivity|].
      cbn [SerializeJSONObject_members existsb snd]. cbn [snd] in Hx.
      rewrite <- Hx, <- IHl.
      destruct (SerializeJSONProperty x) as [[str|]|]; [| |reflexivity];
        destruct (SerializeJSONObject_members l); reflexivity. }
    rewrite <- E. destruct (SerializeJSONObject_members l); reflexivity.
Qed.

Lemma serialize_throws_TypeError (v : JsVal) (e : JsError) :
  SerializeJSONProperty v = Throw e -> exists message, e = TypeError message.
Proof.
  revert e.
  induction v as [| |b|n| | | |s| | |l IH|l IH|] using JsVal_deep_ind;
    intros e; try discriminate; try (destruct b; discriminate).
  - simpl. intros [= <-]. eauto.
  - rewrite SerializeJSONProperty_array.
    assert (E : forall e, SerializeJSONArray_elements l = Throw e ->
                          exists message, e = TypeError message).
    { induction IH as [|x l Hx _ IHl]; [discriminate|].
      intros e'. cbn [SerializeJSONArray_elements].
      destruct (SerializeJSONProperty x) as [strP|ex]; [|intros [= <-]; eauto].
      destruct (SerializeJSONArray_elements l) as [partial|el];
        [discriminate | intros [= <-]; eauto]. }
    destruct (SerializeJSONArray_elements l); [discriminate | intros [= <-]; eauto].
  - rewrite SerializeJSONProperty_object.
    assert (E : forall e, SerializeJSONObject_members l = Throw e ->
                          exists message, e = TypeError message).
    { induction IH as [|[k x] l Hx _ IHl]; [discriminate|].
      intros e'. cbn [SerializeJSONObject_members]. cbn [snd] in Hx.
      destruct (SerializeJSONProperty x) as [strP|ex]; [|intros [= <-]; eauto].
      destruct (SerializeJSONObject_members l) as [partial|el];
        [destruct strP; discriminate | intros [= <-]; eauto]. }
    destruct (SerializeJSONObject_members l); [discriminate | intros [= <-]; eauto].
  - simpl. intros [= <-]. eauto.
Qed.

(** ** Deep equality *)

Lemma get_property_NoDup (k : string) (x : JsVal) (props : list (string * JsVal)) :
  NoDup (map fst props) -> In (k, x) props -> get_property k props = Some x.
Proof.
  induction props as [|[k' x'] props IH]; simpl; intros ND Hin; [tauto|].
  apply NoDup_cons in ND as [Hk ND].
  destruct Hin as [[= -> ->]|Hin].
  - now rewrite String.eqb_refl.
  - destruct (String.eqb_spec k k') as [-> |_]; [|now apply IH].
    exfalso. apply Hk. apply list_elem_of_In.
    change k' with (fst (k', x)). now apply in_map.
Qed.

Lemma deep_equal_refl (v : JsVal) :
  JSON_representable v = true -> deep_equal v v = true.
Proof.
  induction v as [| |b|n| | | |s| | |l IH|l IH|] using JsVal_deep_ind;
    intros R; try discriminate R; try reflexivity.
  - now destruct b.
  - simpl. apply Z.eqb_refl.
  - simpl. apply String.eqb_refl.
  - simpl in R. cbn [deep_equal].
    induction IH as [|x l Hx _ IHl]; [reflexivity|].
    simpl in R. apply andb_prop in R as [Rx Rl].
    rewrite (Hx Rx). simpl. now apply IHl.
  - simpl in R. apply andb_prop in R as [R ND].
    apply bool_decide_eq_true in ND.
    cbn [deep_equal]. rewrite Nat.eqb_refl. cbn [andb].
    match goal with |- ?F l = true =>
      enough (G : forall ps, (forall kv, In kv ps -> In kv l) ->
                             Forall (fun kv => deep_equal (snd kv) (snd kv) = true) ps ->
                             F ps = true)
    end.
    { apply G; [auto|].
      apply forallb_Forall in R. clear -R IH.
      induction IH as [|kv l Hx _ IHl]; [constructor|].
      inversion R; subst. constructor; auto. }
    induction ps as [|[k x] ps IHps]; intros Hin Hrefl; [reflexivity|].
    inversion Hrefl as [|? ? Hx Hrest]; subst. cbn [snd] in Hx.
    rewrite (get_property_NoDup k x l ND (Hin _ (or_introl eq_refl))), Hx.
    cbn [andb]. apply IHps; [|assumption].
    intros kv Hkv. apply Hin. now right.
Qed.

(** ** [deriveKey] *)

Lemma deriveKey_cons (x : JsVal) (l : list JsVal) :
  deriveKey (x :: l) =
  match SerializeJSONArray_elements (x :: l) with
  | Throw e => Throw e
  | Ok partial => Ok ("[" +:+ join "," partial +:+ "]")
  end.
Proof.
  unfold deriveKey, JSON_stringify. rewrite SerializeJSONProperty_array.
  destruct (SerializeJSONArray_elements (x :: l)); reflexivity.
Qed.

Lemma deriveKey_representable (args : list JsVal) :
  forallb JSON_representable args = true ->
  deriveKey args = Ok (match args with [] => "_" | _ :: _ => json_text (JArray args) end).
Proof.
  intros R. destruct args as [|x l]; [reflexivity|].
  unfold deriveKey, JSON_stringify.
  now rewrite (serialize_representable (JArray (x :: l)) R).
Qed.

Lemma deriveKey_throws (args : list JsVal) :
  is_throw (deriveKey args) = existsb unserializable args.
Proof.
  destruct args as [|x l]; [reflexivity|].
  change (existsb unserializable (x :: l)) with (unserializable (JArray (x :: l))).
  rewrite <- (serialize_throws (JArray (x :: l))).
  unfold deriveKey, JSON_stringify.
  destruct (SerializeJSONProperty (JArray (x :: l))) as [[s|]|]; reflexivity.
Qed.

Lemma deriveKey_TypeError (args : list JsVal) (e : JsError) :
  deriveKey args = Throw e -> exists message, e = TypeError message.
Proof.
  destruct args as [|x l]; [discriminate|].
  unfold deriveKey, JSON_stringify.
  destruct (SerializeJSONProperty (JArray (x :: l))) as [[s|]|e'] eqn:E;
    try discriminate.
  intros [= <-]. eapply serialize_throws_TypeError, E.
Qed.

Lemma elements_null_if_dropped (l : list JsVal) :
  SerializeJSONArray_elements (map null_if_dropped l) = SerializeJSONArray_elements l.
Proof.
  induction l as [|x l IH]; [reflexivity|].
  cbn [map SerializeJSONArray_elements]. rewrite IH.
  destruct x as [| |[]| | | | | | | | | |]; reflexivity.
Qed.

Lemma deriveKey_null_if_dropped (args : list JsVal) :
  deriveKey (map null_if_dropped args) = deriveKey args.
Proof.
  destruct args as [|x l]; [reflexivity|].
  cbn [map]. rewrite !deriveKey_cons.
  change (null_if_dropped x :: map null_if_dropped l) with (map null_if_dropped (x :: l)).
  now rewrite elements_null_if_dropped.
Qed.

Lemma deriveKey_nonempty_head (x : JsVal) (l : list JsVal) (key : string) :
  deriveKey (x :: l) = Ok key -> exists rest, key = String "["%char rest.
Proof.
  rewrite deriveKey_cons.
  destruct (SerializeJSONArray_elements (x :: l)); [|discriminate].
  intros [= <-]. simpl. eauto.
Qed.

Lemma deriveKey_inj (a1 a2 : list JsVal) :
  forallb JSON_representable a1 = true ->
  forallb JSON_representable a2 = true ->
  deriveKey a1 = deriveKey a2 -> a1 = a2.
Proof.
  intros R1 R2. rewrite (deriveKey_representable _ R1), (deriveKey_representable _ R2).
  destruct a1 as [|x1 l1], a2 as [|x2 l2]; intros H; try reflexivity;
    try (simpl in H; discriminate H).
  assert (E : json_text (JArray (x1 :: l1)) +:+ EmptyString
              = json_text (JArray (x2 :: l2)) +:+ EmptyString)
    by (f_equal; congruence).
  apply (json_text_inj (JArray (x1 :: l1)) R1 (JArray (x2 :: l2)) _ _ R2) in E;
    [|exact I|exact I].
  destruct E as [[= -> ->] _]. reflexivity.
Qed.

(** ** The wrappers and their stores *)

Section Engine_facts.

Context {U : Type}.
Variable env : Env.

#[local] Abbreviation World := (World U).
#[local] Abbreviation Producer := (@Producer U).
#[local] Abbreviation State := (@State U).
#[local] Abbreviation Cached := (@Cached U).
#[local] Abbreviation Clearable := (@Clearable U).

Lemma entries_set_entries (fc fc' : FlatCache) (items : gmap string JsVal) (w : World) :
  entries fc' (set_entries fc items w) =
  if decide (fc_id fc = fc_id fc') then items else entries fc' w.
Proof.
  unfold entries, set_entries. simpl. rewrite lookup_insert.
  destruct (decide (fc_id fc = fc_id fc')); reflexivity.
Qed.

Lemma entries_set_entries_eq (fc : FlatCache) (items : gmap string JsVal) (w : World) :
  entries fc (set_entries fc items w) = items.
Proof. rewrite entries_set_entries. now rewrite decide_True. Qed.

Lemma entries_with_disk (fc : FlatCache) d (w : World) :
  entries fc (with_disk d w) = entries fc w.
Proof. reflexivity. Qed.

(** What [memo] builds when caching is enabled. *)
Lemma memo_enabled (fn : Producer) (options : MemoOptions) (st : State)
    (cached : Cached) (st' : State) :
  ASTRO_CACHE_ENABLED env = true ->
  memo env fn options st = (cached, st') ->
  let flatCache := memo_store env options st in
  let persist := persist_of options in
  (forall args,
     call cached args =
     (key <- lift (deriveKey args) ;;
      existing <- FlatCache_get flatCache key ;;
      if not_undefined existing then ret existing
      else
        value <- invoke (memo_name options) fn args ;;
        FlatCache_set flatCache key value ;;;
        (if persist then FlatCache_save flatCache else ret tt) ;;;
        ret value))
  /\ clearable cached = store_clear flatCache persist
  /\ caches st' = caches st ++ [clearable cached].
Proof.
  intros En. unfold memo. rewrite En. cbn [negb new_FlatCache].
  intros [= <- <-]. cbn. auto.
Qed.

Ltac run_M :=
  cbv [bind lift ret throw attempt Date_now invoke
       FlatCache_get FlatCache_set FlatCache_save FlatCache_clear FlatCache_removeKey].

(** A call of a memo cache whose store holds a value other than
    [undefined] for the key: a hit, and nothing changes. *)
Lemma memo_hit (fn : Producer) (options : MemoOptions) (st : State)
    (cached : Cached) (st' : State) (w : World) (args : list JsVal)
    (key : string) (v : JsVal) :
  ASTRO_CACHE_ENABLED env = true ->
  memo env fn options st = (cached, st') ->
  deriveKey args = Ok key ->
  entries (memo_store env options st) w !! key = Some v ->
  v <> JUndefined ->
  call cached args w = (Ok v, w).
Proof.
  intros En Hm Hk Hv Hu.
  destruct (memo_enabled fn options st cached st' En Hm) as (Hcall & _ & _).
  rewrite Hcall. run_M. rewrite Hk, Hv. cbn.
  destruct v; try reflexivity. congruence.
Qed.

(** A call of a memo cache whose store answers [undefined] for the key: a
    miss.  The producer is invoked and its outcome is the outcome of the
    call; a value is stored under the key. *)
Lemma memo_miss (fn : Producer) (options : MemoOptions) (st : State)
    (cached : Cached) (st' : State) (w : World) (args : list JsVal)
    (key : string) :
  ASTRO_CACHE_ENABLED env = true ->
  memo env fn options st = (cached, st') ->
  deriveKey args = Ok key ->
  entries (memo_store env options st) w !! key ?? JUndefined = JUndefined ->
  let w' := snd (call cached args w) in
  fst (call cached args w) = fst (fn args (user w))
  /\ calls w' = calls w ++ [(memo_name options, args)]
  /\ user w' = snd (fn args (user w))
  /\ now w' = now w
  /\ forall v, fst (fn args (user w)) = Ok v ->
       entries (memo_store env options st) w' =
       <[key := v]> (entries (memo_store env options st) w).
Proof.
  intros En Hm Hk Hv.
  destruct (memo_enabled fn options st cached st' En Hm) as (Hcall & _ & _).
  rewrite Hcall. run_M. rewrite Hk, Hv. cbn.
  destruct (fn args (user w)) as [[v|e] u]; cbn.
  - destruct (persist_of options); cbn;
      (repeat split; try reflexivity; intros ? [= <-];
       rewrite ?entries_with_disk; apply entries_set_entries_eq).
  - repeat split; try reflexivity. discriminate.
Qed.

(** C4: for a memo-wrapped producer and a key whose stored value is present
    but falsy (the empty string, zero, false, null: any falsy value other
    than undefined), a call with the same arguments returns the stored value
    as a hit and does not invoke the producer: the world, with its record of
    invocations, is unchanged.  Absence is told apart: with no entry under
    the key the same call invokes the producer. *)
Theorem memo_present_but_falsy_is_a_hit (fn : Producer) (options : MemoOptions)
    (st : State) (cached : Cached) (st' : State) (w : World) (args : list JsVal)
    (key : string) (v : JsVal) :
  ASTRO_CACHE_ENABLED env = true ->
  memo env fn options st = (cached, st') ->
  deriveKey args = Ok key ->
  falsy v = true ->
  v <> JUndefined ->
  (entries (memo_store env options st) w !! key = Some v ->
   call cached args w = (Ok v, w))
  /\ (entries (memo_store env options st) w !! key = None ->
      fst (call cached args w) = fst (fn args (user w))
      /\ calls (snd (call cached args w)) = calls w ++ [(memo_name options, args)]).
Proof.
  intros En Hm Hk _ Hu. split.
  - intros Hv. eapply memo_hit; eauto.
  - intros Hv.
    destruct (memo_miss fn options st cached st' w args key En Hm Hk) as (H1 & H2 & _).
    + now rewrite Hv.
    + auto.
Qed.

Lemma run_calls_cons (f : list JsVal -> M U JsVal) (args : list JsVal)
    (rest : list (list JsVal)) (w : World) :
  run_calls f (args :: rest) w =
  (fst (f args w) :: fst (run_calls f rest (snd (f args w))),
   snd (run_calls f rest (snd (f args w)))).
Proof.
  cbn [run_calls]. destruct (f args w) as [r w1]. cbn [fst snd].
  destruct (run_calls f rest w1); reflexivity.
Qed.

(** C10: a memo-wrapped producer that resolves to undefined is never cached.
    Starting from a store that answers undefined for the key, [n] calls with
    the same arguments are [n] misses: each invokes the producer again and
    resolves to undefined. *)
Theorem memo_undefined_is_never_cached (fn : Producer) (options : MemoOptions)
    (st : State) (cached : Cached) (st' : State) (args : list JsVal)
    (key : string) (n : nat) (w : World) :
  ASTRO_CACHE_ENABLED env = true ->
  memo env fn options st = (cached, st') ->
  deriveKey args = Ok key ->
  (forall u, fst (fn args u) = Ok JUndefined) ->
  entries (memo_store env options st) w !! key ?? JUndefined = JUndefined ->
  fst (run_calls (call cached) (replicate n args) w) = replicate n (Ok JUndefined)
  /\ calls (snd (run_calls (call cached) (replicate n args) w))
     = calls w ++ replicate n (memo_name options, args).
Proof.
  intros En Hm Hk Hfn. revert w.
  induction n as [|n IH]; intros w Hv.
  - cbn. now rewrite app_nil_r.
  - cbn [replicate]. rewrite run_calls_cons. cbn [fst snd].
    destruct (memo_miss fn options st cached st' w args key En Hm Hk Hv)
      as (H1 & H2 & _ & _ & H5).
    specialize (H5 _ (Hfn (user w))).
    destruct (IH (snd (call cached args w))) as [IH1 IH2].
    { rewrite H5. now rewrite lookup_insert_eq. }
    rewrite IH1, IH2, H1, H2, Hfn. split; [reflexivity|].
    now rewrite <- app_assoc.
Qed.

Lemma deriveKey_sentinel :
  deriveKey [] = Ok "_"
  /\ forall args, args <> [] -> deriveKey args <> Ok "_".
Proof.
  split; [reflexivity|].
  intros [|x l] Hne H; [congruence|].
  apply deriveKey_nonempty_head in H as [rest H]. discriminate H.
Qed.

(** C5 (amended): the key deriver maps the empty argument list to the
    sentinel ["_"], which no non-empty argument list gets; and two
    consecutive zero-argument calls to a memo-wrapped producer, on a store
    with no value under the sentinel yet and with a producer that resolves
    to a value other than undefined, invoke the producer exactly once, the
    second call returning the value of the first. *)
Theorem zero_argument_calls_are_cached :
  (deriveKey [] = Ok "_"
   /\ forall args, args <> [] -> deriveKey args <> Ok "_")
  /\ forall (fn : Producer) (options : MemoOptions) (st : State) (cached : Cached)
        (st' : State) (w : World) (v : JsVal),
      ASTRO_CACHE_ENABLED env = true ->
      memo env fn options st = (cached, st') ->
      entries (memo_store env options st) w !! "_" ?? JUndefined = JUndefined ->
      fst (fn [] (user w)) = Ok v ->
      v <> JUndefined ->
      let first := call cached [] w in
      let second := call cached [] (snd first) in
      fst first = Ok v
      /\ fst second = Ok v
      /\ calls (snd second) = calls w ++ [(memo_name options, [])].
Proof.
  split; [exact deriveKey_sentinel|].
  intros fn options st cached st' w v En Hm Habsent Hv Hu. cbn zeta.
  destruct (memo_miss fn options st cached st' w [] "_" En Hm eq_refl Habsent)
    as (H1 & H2 & _ & _ & H5).
  specialize (H5 _ Hv).
  assert (Hhit : call cached [] (snd (call cached [] w))
                 = (Ok v, snd (call cached [] w))).
  { eapply memo_hit; eauto. rewrite H5. apply lookup_insert_eq. }
  rewrite Hhit. cbn [fst snd]. rewrite H1, Hv. auto.
Qed.

(** What [swr] builds when caching is enabled. *)
Lemma swr_enabled (fn : Producer) (options : SwrOptions) (st : State)
    (cached : Cached) (st' : State) :
  ASTRO_CACHE_ENABLED env = true ->
  swr env fn options st = (cached, st') ->
  clearable cached = store_clear (swr_store env options st) true
  /\ caches st' = caches st ++ [clearable cached].
Proof.
  intros En. unfold swr. rewrite En. cbn [negb new_FlatCache].
  intros [= <- <-]. cbn. auto.
Qed.

(** A call of an SWR cache whose store is empty: a miss.  The producer is
    invoked and its outcome is the outcome of the call. *)
Lemma swr_miss_on_empty (fn : Producer) (options : SwrOptions) (st : State)
    (cached : Cached) (st' : State) (w : World) (args : list JsVal)
    (key : string) :
  ASTRO_CACHE_ENABLED env = true ->
  swr env fn options st = (cached, st') ->
  deriveKey args = Ok key ->
  entries (swr_store env options st) w = ∅ ->
  fst (call cached args w) = fst (fn args (user w))
  /\ calls (snd (call cached args w)) = calls w ++ [(swr_name options, args)]
  /\ user (snd (call cached args w)) = snd (fn args (user w)).
Proof.
  intros En Hs Hk Hv. unfold swr in Hs. rewrite En in Hs.
  cbn [negb new_FlatCache] in Hs. injection Hs as <- <-.
  cbn [call]. unfold createStaleWhileRevalidateCache. cbn [storage getItem setItem].
  run_M. rewrite Hk.
  change {| fc_id := next (world st); fc_options := swr_flat_options env options |}
    with (swr_store env options st).
  rewrite Hv, !lookup_empty. cbn.
  destruct (fn args (user w)) as [[v|e] u]; cbn; auto.
Qed.

(** The clear of a registry entry made by a wrapper: it returns normally,
    empties its store and leaves the producers alone. *)
Lemma store_clear_spec (fc : FlatCache) (persist : bool) (w : World) :
  exists w',
    clear (store_clear fc persist) w = (Ok tt, w')
    /\ user w' = user w /\ calls w' = calls w /\ now w' = now w
    /\ forall fc', entries fc' w' =
                   if decide (fc_id fc = fc_id fc') then ∅ else entries fc' w.
Proof.
  destruct persist; cbn; run_M; eexists; (split; [reflexivity|]);
    repeat split; intros fc'; rewrite ?entries_with_disk; apply entries_set_entries.
Qed.

Lemma clear_each_made_by_wrapper (registry : list Clearable) (w : World) :
  Forall made_by_wrapper registry ->
  exists w',
    clear_each registry w = (Ok tt, w')
    /\ user w' = user w /\ calls w' = calls w /\ now w' = now w
    /\ forall fc', entries fc' w' = ∅ \/ entries fc' w' = entries fc' w.
Proof.
  intros Hall. revert w.
  induction Hall as [|c registry Hc _ IH]; intros w.
  - exists w. cbn. repeat split; auto.
  - destruct Hc as [fc persist].
    destruct (store_clear_spec fc persist w) as (w1 & E1 & Hu1 & Hc1 & Hn1 & He1).
    destruct (IH w1) as (w2 & E2 & Hu2 & Hc2 & Hn2 & He2).
    exists w2. cbn [clear_each]. unfold bind at 1. rewrite E1, E2.
    repeat split; try congruence.
    intros fc'. destruct (He2 fc') as [-> | ->]; [now left|].
    rewrite He1. destruct (decide (fc_id fc = fc_id fc')); auto.
Qed.

Lemma clear_each_empties (registry : list Clearable) (fc : FlatCache)
    (persist : bool) (w : World) :
  Forall made_by_wrapper registry ->
  In (store_clear fc persist) registry ->
  exists w',
    clear_each registry w = (Ok tt, w')
    /\ user w' = user w /\ calls w' = calls w /\ now w' = now w
    /\ entries fc w' = ∅.
Proof.
  intros Hall. revert w.
  induction Hall as [|c registry Hc Hall IH]; intros w Hin; [destruct Hin|].
  destruct Hin as [-> |Hin].
  - destruct (store_clear_spec fc persist w) as (w1 & E1 & Hu1 & Hc1 & Hn1 & He1).
    destruct (clear_each_made_by_wrapper registry w1 Hall)
      as (w2 & E2 & Hu2 & Hc2 & Hn2 & He2).
    exists w2. cbn [clear_each]. unfold bind at 1. rewrite E1, E2.
    repeat split; try congruence.
    destruct (He2 fc) as [-> | ->]; [reflexivity|].
    rewrite He1. now rewrite decide_True.
  - destruct Hc as [fc0 persist0].
    destruct (store_clear_spec fc0 persist0 w) as (w1 & E1 & Hu1 & Hc1 & Hn1 & He1).
    destruct (IH w1 Hin) as (w2 & E2 & Hu2 & Hc2 & Hn2 & He2).
    exists w2. cbn [clear_each]. unfold bind at 1. rewrite E1, E2.
    repeat split; congruence.
Qed.

(** A wrapper whose store is empty treats every key as absent. *)
Lemma empty_store_refetches (fn : Producer) (name : string) (st : State)
    (cached : Cached) (st' : State) (w : World) :
  ASTRO_CACHE_ENABLED env = true ->
  wraps env fn name st cached st' ->
  (forall fc, clearable cached = store_clear fc true \/
              clearable cached = store_clear fc false ->
              fc_id fc = next (world st) -> entries fc w = ∅) ->
  refetches name fn cached w.
Proof.
  intros En [options <- Hs|options <- Hm] Hempty args key Hk.
  - destruct (swr_enabled fn options st cached st' En Hs) as (Hc & _).
    apply (swr_miss_on_empty fn options st cached st' w args key En Hs Hk).
    apply (Hempty (swr_store env options st)); auto.
  - destruct (memo_enabled fn options st cached st' En Hm) as (_ & Hc & _).
    destruct (memo_miss fn options st cached st' w args key En Hm Hk)
      as (H1 & H2 & H3 & _); [|auto].
    rewrite (Hempty (memo_store env options st)); auto.
    destruct (persist_of options); auto.
Qed.

Lemma wraps_store_clear (fn : Producer) (name : string) (st : State)
    (cached : Cached) (st' : State) :
  ASTRO_CACHE_ENABLED env = true ->
  wraps env fn name st cached st' ->
  exists fc persist,
    clearable cached = store_clear fc persist
    /\ fc_id fc = next (world st)
    /\ caches st' = caches st ++ [clearable cached].
Proof.
  intros En [options <- Hs|options <- Hm].
  - destruct (swr_enabled fn options st cached st' En Hs) as (Hc & Hr).
    exists (swr_store env options st), true. auto.
  - destruct (memo_enabled fn options st cached st' En Hm) as (_ & Hc & Hr).
    exists (memo_store env options st), (persist_of options). auto.
Qed.

(** The registry stays made of wrapper entries. *)
Lemma wraps_registry (fn : Producer) (name : string) (st : State)
    (cached : Cached) (st' : State) :
  wraps env fn name st cached st' ->
  Forall made_by_wrapper (caches st) ->
  Forall made_by_wrapper (caches st').
Proof.
  intros Hw Hall.
  destruct (ASTRO_CACHE_ENABLED env) eqn:En.
  - destruct (wraps_store_clear fn name st cached st' En Hw)
      as (fc & persist & Hc & _ & ->).
    apply Forall_app. split; [assumption|].
    constructor; [|constructor]. rewrite Hc. constructor.
  - destruct Hw as [options _ H|options _ H]; unfold swr, memo in H;
      rewrite En in H; injection H as _ <-; assumption.
Qed.

(** A store is empty where an entry with its number has just been
    cleared. *)
Lemma store_clear_same_id (fc fc' : FlatCache) (persist persist' : bool) (w : World) :
  clear (U:=U) (store_clear fc persist) = clear (store_clear fc' persist') ->
  entries fc w = ∅ -> entries fc' w = ∅.
Proof.
  intros Heq Hempty.
  destruct (store_clear_spec fc persist w) as (w1 & E1 & _ & _ & _ & He1).
  destruct (store_clear_spec fc' persist' w) as (w2 & E2 & _ & _ & _ & He2).
  rewrite Heq, E2 in E1. injection E1 as ->.
  specialize (He1 fc'). specialize (He2 fc'). rewrite decide_True in He2 by reflexivity.
  rewrite He2 in He1. destruct (decide (fc_id fc = fc_id fc')) as [Hid|Hne].
  - unfold entries in *. now rewrite <- Hid.
  - now symmetry.
Qed.


(** Calling the producer through [invoke], once for each argument list. *)
Lemma run_calls_invoke (name : string) (fn : Producer)
    (argss : list (list JsVal)) (w : World) :
  run_calls (invoke name fn) argss w =
  (fst (produce_all fn argss (user w)),
   after_calls name argss (snd (produce_all fn argss (user w))) w).
Proof.
  revert w. induction argss as [|args rest IH]; intros w.
  - cbn. unfold after_calls. cbn. rewrite app_nil_r. now destruct w.
  - cbn [run_calls produce_all]. unfold invoke at 1.
    destruct (fn args (user w)) as [r u1]. rewrite IH. cbn [user].
    destruct (produce_all fn rest u1) as [rs u2]. cbn [fst snd].
    unfold after_calls. cbn. now rewrite <- app_assoc.
Qed.

(** C7: with caching globally disabled, a function wrapped by [swr] or
    [memo] is the producer itself: [N] calls, whatever their arguments,
    invoke the producer exactly [N] times, each call answering with the
    outcome of its own invocation; nothing is registered; and [clear()] is a
    no-op that returns normally. *)
Theorem disabled_is_pass_through (fn : Producer) (name : string) (st : State)
    (cached : Cached) (st' : State) :
  ASTRO_CACHE_ENABLED env = false ->
  wraps env fn name st cached st' ->
  st' = st
  /\ (forall (argss : list (list JsVal)) (w : World),
        let produced := produce_all fn argss (user w) in
        run_calls (call cached) argss w
        = (fst produced, after_calls name argss (snd produced) w)
        /\ length (fst produced) = length argss
        /\ length (calls (snd (run_calls (call cached) argss w)))
           = (length (calls w) + length argss)%nat)
  /\ (forall w : World, clear cached w = (Ok tt, w)).
Proof.
  intros En Hw.
  assert (H : st' = st /\ call cached = invoke name fn
              /\ clear cached = ret tt).
  { destruct Hw as [options <- H|options <- H]; unfold swr, memo in H;
      rewrite En in H; injection H as <- <-; auto. }
  destruct H as (-> & Hcall & Hclear).
  split; [reflexivity|]. split; [|now rewrite Hclear].
  intros argss w. cbn zeta. rewrite Hcall, run_calls_invoke. cbn [snd].
  split; [reflexivity|]. split.
  - clear. generalize (user w). induction argss as [|args rest IH]; intros u.
    + reflexivity.
    + cbn [produce_all]. destruct (fn args u) as [r u1].
      specialize (IH u1). destruct (produce_all fn rest u1). cbn in *. now rewrite IH.
  - unfold after_calls. cbn. now rewrite length_app, length_map.
Qed.

(** ** The registry *)

Lemma clear_each_ok (registry : list Clearable) (w w' : World) :
  clear_each registry w = (Ok tt, w') <-> cleared_in_order registry w w'.
Proof.
  revert w. induction registry as [|c registry IH]; intros w; cbn [clear_each].
  - split.
    + intros [= <-]. constructor.
    + intros H. inversion H. reflexivity.
  - unfold bind. split.
    + destruct (clear c w) as [[[]|e] w1] eqn:E; [|discriminate].
      intros H. econstructor; [exact E|]. now apply IH.
    + intros H. inversion H as [|? ? ? w1 ? E Hrest]; subst.
      rewrite E. now apply IH.
Qed.

Lemma clear_each_throw (before : list Clearable) (cache : Clearable)
    (after : list Clearable) (w w1 w2 : World) (e : JsError) :
  cleared_in_order before w w1 ->
  clear cache w1 = (Throw e, w2) ->
  clear_each (before ++ cache :: after) w = (Throw e, w2).
Proof.
  intros Hbefore Hthrow.
  induction Hbefore as [w|c rest w w0 w1 E _ IH]; cbn [app clear_each]; unfold bind.
  - now rewrite Hthrow.
  - rewrite E. now apply IH.
Qed.

(** [clear_each] either clears the whole registry in order or is stopped by
    the first entry that throws. *)
Lemma clear_each_outcome (registry : list Clearable) (w : World) :
  (exists w', cleared_in_order registry w w' /\ clear_each registry w = (Ok tt, w'))
  \/ (exists before cache after w1 w2 e,
        registry = before ++ cache :: after
        /\ cleared_in_order before w w1
        /\ clear cache w1 = (Throw e, w2)
        /\ clear_each registry w = (Throw e, w2)).
Proof.
  revert w. induction registry as [|c registry IH]; intros w.
  - left. exists w. split; [constructor | reflexivity].
  - destruct (clear c w) as [[[]|e] w1] eqn:E.
    + destruct (IH w1) as [(w' & Hin & Hok)|(before & cache & after & w2 & w3 & e & -> & Hb & Ht & Hr)].
      * left. exists w'. split; [econstructor; eauto|].
        cbn [clear_each]. unfold bind. now rewrite E.
      * right. exists (c :: before), cache, after, w2, w3, e.
        split; [reflexivity|]. split; [econstructor; eauto|]. split; [assumption|].
        cbn [app clear_each]. unfold bind. now rewrite E.
    + right. exists [], c, registry, w, w1, e.
      split; [reflexivity|]. split; [constructor|]. split; [assumption|].
      cbn [clear_each]. unfold bind. now rewrite E.
Qed.

(** C1 (amended): [clearAllCaches] calls [clear()] on the registered
    instances in registration order and does not catch what they throw.
    Either every [clear()] returns normally and every instance has been
    cleared, in order; or the first [clear()] that throws ends the loop: the
    instances registered before it have been cleared, in order, the
    exception reaches the caller of [clearAllCaches], and the world is the
    one that [clear()] left, no later instance having been cleared. *)
Theorem clearAllCaches_stops_at_the_first_throw (st : State) :
  (exists w',
     cleared_in_order (caches st) (world st) w'
     /\ clearAllCaches st = (Ok tt, {| caches := caches st; world := w' |}))
  \/ (exists before cache after w1 w2 e,
        caches st = before ++ cache :: after
        /\ cleared_in_order before (world st) w1
        /\ clear cache w1 = (Throw e, w2)
        /\ clearAllCaches st = (Throw e, {| caches := caches st; world := w2 |})).
Proof.
  unfold clearAllCaches.
  destruct (clear_each_outcome (caches st) (world st))
    as [(w' & Hin & ->)|(before & cache & after & w1 & w2 & e & Hreg & Hb & Ht & ->)].
  - left. eauto.
  - right. exists before, cache, after, w1, w2, e. auto.
Qed.

(** A key that cannot be derived surfaces from the wrapped call before the
    store is read or the producer invoked. *)
Lemma key_error_surfaces (fn : Producer) (name : string) (st : State)
    (cached : Cached) (st' : State) (w : World) (args : list JsVal) (e : JsError) :
  ASTRO_CACHE_ENABLED env = true ->
  wraps env fn name st cached st' ->
  deriveKey args = Throw e ->
  call cached args w = (Throw e, w).
Proof.
  intros En [options <- Hs|options <- Hm] Hk.
  - unfold swr in Hs. rewrite En in Hs. cbn [negb new_FlatCache] in Hs.
    injection Hs as <- <-. cbn [call]. run_M. now rewrite Hk.
  - destruct (memo_enabled fn options st cached st' En Hm) as (Hcall & _).
    rewrite Hcall. run_M. now rewrite Hk.
Qed.

End Engine_facts.

(** ** Key derivation *)

(** C2 (amended): key derivation fails exactly for the argument lists that
    hold, at any depth, a cyclic reference or a BigInt, and then it throws a
    TypeError; every other argument list gets a key.  A function, a symbol,
    [undefined], [NaN] or an infinity among the arguments is not an error:
    it is written as [null], so the list gets the key of the list that has
    [null] in its place. *)
Theorem deriveKey_fails_on_cycles_and_bigints_only (args : list JsVal) :
  (if existsb unserializable args
   then exists message, deriveKey args = Throw (TypeError message)
   else exists key, deriveKey args = Ok key)
  /\ deriveKey (map null_if_dropped args) = deriveKey args.
Proof.
  split; [|apply deriveKey_null_if_dropped].
  rewrite <- deriveKey_throws.
  destruct (deriveKey args) as [key|e] eqn:E; cbn; [eauto|].
  destruct (deriveKey_TypeError _ _ E) as [message ->]. eauto.
Qed.


(** ** Entries of a key under LRU pressure *)

Lemma pairs_of_app (ks1 ks2 : list string) :
  pairs_of (ks1 ++ ks2) = pairs_of ks1 ++ pairs_of ks2.
Proof. unfold pairs_of. apply flat_map_app. Qed.

Lemma pairs_of_length (ks : list string) :
  length (pairs_of ks) = (2 * length ks)%nat.
Proof.
  unfold pairs_of. induction ks as [|k ks IH]; cbn; [reflexivity | rewrite IH; lia].
Qed.

Lemma elem_of_pairs_of (e : SwrEntry) (ks : list string) :
  e ∈ pairs_of ks <-> exists k, k ∈ ks /\ (e = TimeEntry k \/ e = ValueEntry k).
Proof.
  induction ks as [|k ks IH]; cbn.
  - split; [intros H; inversion H | intros (k & H & _); inversion H].
  - rewrite !elem_of_cons, IH. split.
    + intros [->|[->|(k' & Hk' & He)]].
      * exists k. rewrite elem_of_cons. auto.
      * exists k. rewrite elem_of_cons. auto.
      * exists k'. rewrite elem_of_cons. auto.
    + intros (k' & Hk' & He). apply elem_of_cons in Hk' as [->|Hk'].
      * destruct He; auto.
      * right. right. eauto.
Qed.

Lemma filter_absent (e : SwrEntry) (l : list SwrEntry) :
  e ∉ l -> filter (fun x => x <> e) l = l.
Proof.
  induction l as [|x l IH]; intros Hnot; [reflexivity|].
  apply not_elem_of_cons in Hnot as [Hne Hnot].
  rewrite filter_cons_True by congruence. now rewrite IH.
Qed.

Lemma entry_absent (k : string) (ks : list string) :
  k ∉ ks -> (TimeEntry k ∉ pairs_of ks) /\ (ValueEntry k ∉ pairs_of ks).
Proof.
  intros Hk. split; rewrite elem_of_pairs_of;
    intros (k' & Hk' & [He|He]); congruence.
Qed.

(** Writing the value and the timestamp of a key that the store holds. *)
Lemma persist_present (capacity : Z) (k : string) (ks1 ks2 : list string) :
  k ∉ ks1 -> k ∉ ks2 ->
  (0 < capacity -> Z.of_nat (length (pairs_of (ks1 ++ k :: ks2))) <= capacity) ->
  lru_access capacity (Persist k) (pairs_of (ks1 ++ k :: ks2))
  = pairs_of (k :: ks1 ++ ks2).
Proof.
  intros H1 H2 Hcap.
  destruct (entry_absent k ks1 H1) as [Ht1 Hv1].
  destruct (entry_absent k ks2 H2) as [Ht2 Hv2].
  assert (Hlen : length (pairs_of (ks1 ++ k :: ks2))
                 = S (S (length (pairs_of ks1 ++ pairs_of ks2)))).
  { rewrite !pairs_of_app, !length_app.
    change (pairs_of (k :: ks2)) with (TimeEntry k :: ValueEntry k :: pairs_of ks2).
    cbn [length]. lia. }
  rewrite Hlen in Hcap.
  cbn [lru_access]. unfold lru_insert at 2.
  rewrite pairs_of_app. cbn [pairs_of flat_map app].
  rewrite filter_app, (filter_absent _ _ Hv1).
  rewrite filter_cons_True by discriminate.
  rewrite filter_cons_False by (intros H; now apply H).
  fold (pairs_of ks2). rewrite (filter_absent _ _ Hv2).
  replace ((0 <? capacity) && (capacity <? _)) with false.
  2:{ symmetry. apply andb_false_iff.
      destruct (Z.ltb_spec 0 capacity); [right|now left].
      apply Z.ltb_ge. cbn [length]. rewrite length_app in *. cbn [length] in *. lia. }
  unfold lru_insert.
  rewrite filter_cons_True by discriminate.
  rewrite filter_app, (filter_absent _ _ Ht1).
  rewrite filter_cons_False by (intros H; now apply H).
  rewrite (filter_absent _ _ Ht2).
  replace ((0 <? capacity) && (capacity <? _)) with false.
  2:{ symmetry. apply andb_false_iff.
      destruct (Z.ltb_spec 0 capacity); [right|now left].
      apply Z.ltb_ge. cbn [length]. rewrite length_app in *. lia. }
  cbn [pairs_of flat_map app]. fold (pairs_of (ks1 ++ ks2)).
  now rewrite pairs_of_app.
Qed.

(** Writing the entries of a new key while there is room for both. *)
Lemma persist_absent_room (capacity : Z) (k : string) (ks : list string) :
  k ∉ ks ->
  (0 < capacity -> Z.of_nat (length (pairs_of ks)) + 2 <= capacity) ->
  lru_access capacity (Persist k) (pairs_of ks) = pairs_of (k :: ks).
Proof.
  intros Hk Hcap. destruct (entry_absent k ks Hk) as [Ht Hv].
  cbn [lru_access]. unfold lru_insert at 2. rewrite (filter_absent _ _ Hv).
  replace ((0 <? capacity) && (capacity <? _)) with false.
  2:{ symmetry. apply andb_false_iff.
      destruct (Z.ltb_spec 0 capacity); [right|now left].
      apply Z.ltb_ge. cbn [length]. lia. }
  unfold lru_insert. rewrite filter_cons_True by discriminate.
  rewrite (filter_absent _ _ Ht).
  replace ((0 <? capacity) && (capacity <? _)) with false; [reflexivity|].
  symmetry. apply andb_false_iff.
  destruct (Z.ltb_spec 0 capacity); [right|now left].
  apply Z.ltb_ge. cbn [length]. lia.
Qed.

(** Writing the entries of a new key into a full store of even capacity:
    the value and the timestamp of the least recently used key go, one
    after the other. *)
Lemma persist_absent_full (capacity : Z) (k oldest : string) (ks : list string) :
  k ∉ ks ++ [oldest] ->
  0 < capacity ->
  Z.of_nat (length (pairs_of (ks ++ [oldest]))) = capacity ->
  lru_access capacity (Persist k) (pairs_of (ks ++ [oldest])) = pairs_of (k :: ks).
Proof.
  intros Hk Hpos Hcap. destruct (entry_absent k _ Hk) as [Ht Hv].
  assert (Ht' : TimeEntry k ∉ pairs_of ks ++ [TimeEntry oldest]).
  { intros H. apply Ht. rewrite pairs_of_app. cbn.
    apply elem_of_app in H as [H|H]; apply elem_of_app; [now left|right].
    apply list_elem_of_singleton in H as ->. apply elem_of_cons. now left. }
  cbn [lru_access]. unfold lru_insert at 2. rewrite (filter_absent _ _ Hv).
  replace ((0 <? capacity) && (capacity <? _)) with true.
  2:{ symmetry. apply andb_true_iff. split; [now apply Z.ltb_lt|].
      apply Z.ltb_lt. cbn [length]. lia. }
  assert (E : removelast (ValueEntry k :: pairs_of (ks ++ [oldest]))
              = ValueEntry k :: pairs_of ks ++ [TimeEntry oldest]).
  { rewrite pairs_of_app.
    change (pairs_of [oldest]) with ([TimeEntry oldest] ++ [ValueEntry oldest]).
    rewrite app_assoc, app_comm_cons. apply removelast_last. }
  rewrite E. unfold lru_insert.
  rewrite filter_cons_True by discriminate. rewrite (filter_absent _ _ Ht').
  replace ((0 <? capacity) && (capacity <? _)) with true.
  2:{ symmetry. apply andb_true_iff. split; [now apply Z.ltb_lt|].
      apply Z.ltb_lt. rewrite pairs_of_app, length_app in Hcap. cbn [length] in *.
      rewrite length_app. cbn [pairs_of flat_map length app] in *. lia. }
  change (TimeEntry k :: ValueEntry k :: pairs_of ks ++ [TimeEntry oldest])
    with ((TimeEntry k :: ValueEntry k :: pairs_of ks) ++ [TimeEntry oldest]).
  now rewrite removelast_last.
Qed.

(** Reading the entries of a key. *)
Lemma lookup_present (capacity : Z) (k : string) (ks1 ks2 : list string) :
  k ∉ ks1 -> k ∉ ks2 ->
  lru_access capacity (Lookup k) (pairs_of (ks1 ++ k :: ks2))
  = pairs_of (k :: ks1 ++ ks2).
Proof.
  intros H1 H2.
  destruct (entry_absent k ks1 H1) as [Ht1 Hv1].
  destruct (entry_absent k ks2 H2) as [Ht2 Hv2].
  cbn [lru_access]. unfold lru_touch at 2.
  rewrite bool_decide_eq_true_2.
  2:{ apply elem_of_pairs_of. exists k. split; [|now right].
      apply elem_of_app. right. apply elem_of_cons. now left. }
  rewrite pairs_of_app. cbn [pairs_of flat_map app].
  rewrite filter_app, (filter_absent _ _ Hv1).
  rewrite filter_cons_True by discriminate.
  rewrite filter_cons_False by (intros H; now apply H).
  fold (pairs_of ks2). rewrite (filter_absent _ _ Hv2).
  unfold lru_touch. rewrite bool_decide_eq_true_2.
  2:{ apply elem_of_cons. right. apply elem_of_app. right. apply elem_of_cons. now left. }
  rewrite filter_cons_True by discriminate.
  rewrite filter_app, (filter_absent _ _ Ht1).
  rewrite filter_cons_False by (intros H; now apply H).
  rewrite (filter_absent _ _ Ht2).
  cbn [pairs_of flat_map app]. fold (pairs_of (ks1 ++ ks2)).
  now rewrite pairs_of_app.
Qed.

Lemma lookup_absent (capacity : Z) (k : string) (ks : list string) :
  k ∉ ks -> lru_access capacity (Lookup k) (pairs_of ks) = pairs_of ks.
Proof.
  intros Hk. destruct (entry_absent k ks Hk) as [Ht Hv].
  cbn [lru_access]. unfold lru_touch.
  now rewrite (bool_decide_eq_false_2 _ Hv), (bool_decide_eq_false_2 _ Ht).
Qed.

(** One access to a store of even capacity that holds whole pairs leaves
    whole pairs. *)
Lemma lru_access_keeps_pairs (capacity half : Z) (a : SwrAccess) (ks : list string) :
  capacity = 2 * half ->
  NoDup ks ->
  (0 < capacity -> Z.of_nat (length (pairs_of ks)) <= capacity) ->
  exists ks',
    NoDup ks'
    /\ lru_access capacity a (pairs_of ks) = pairs_of ks'
    /\ (0 < capacity -> Z.of_nat (length (pairs_of ks')) <= capacity).
Proof.
  intros Heven Hnodup Hcap.
  assert (Hsplit : forall k, k ∈ ks ->
            exists ks1 ks2, ks = ks1 ++ k :: ks2 /\ (k ∉ ks1) /\ (k ∉ ks2)
                            /\ NoDup (k :: ks1 ++ ks2)
                            /\ length (pairs_of (k :: ks1 ++ ks2)) = length (pairs_of ks)).
  { intros k Hk. apply list_elem_of_split in Hk as (ks1 & ks2 & ->).
    exists ks1, ks2. apply NoDup_app in Hnodup as (N1 & N12 & N2).
    apply NoDup_cons in N2 as [Hk2 N2].
    assert (Hk1 : k ∉ ks1).
    { intros H. apply (N12 _ H). apply elem_of_cons. now left. }
    repeat split; auto.
    - apply NoDup_cons. split.
      + intros H. apply elem_of_app in H as [H|H]; auto.
      + apply NoDup_app. repeat split; auto.
        intros x Hx1 Hx2. apply (N12 _ Hx1). apply elem_of_cons. now right.
    - rewrite !pairs_of_length, !length_app. cbn [length]. rewrite length_app. lia. }
  destruct a as [k|k]; destruct (decide (k ∈ ks)) as [Hin|Hout].
  - destruct (Hsplit k Hin) as (ks1 & ks2 & -> & H1 & H2 & Hnd & Hlen).
    exists (k :: ks1 ++ ks2). split; [assumption|].
    split; [now apply lookup_present|]. now rewrite Hlen.
  - exists ks. split; [assumption|]. split; [now apply lookup_absent | assumption].
  - destruct (Hsplit k Hin) as (ks1 & ks2 & -> & H1 & H2 & Hnd & Hlen).
    exists (k :: ks1 ++ ks2). split; [assumption|].
    split; [now apply persist_present|]. now rewrite Hlen.
  - destruct (decide (0 < capacity /\ capacity < Z.of_nat (length (pairs_of ks)) + 2))
      as [[Hpos Hfull]|Hroom].
    + specialize (Hcap Hpos). rewrite pairs_of_length in Hcap, Hfull.
      assert (Hne : ks <> []) by (intros ->; cbn in *; lia).
      destruct (exists_last Hne) as (ks0 & oldest & ->).
      exists (k :: ks0). apply NoDup_app in Hnodup as (N0 & _ & _).
      rewrite length_app in Hcap, Hfull. cbn [length] in Hcap, Hfull.
      split; [|split].
      * apply NoDup_cons. split; [|assumption].
        intros H. apply Hout. apply elem_of_app. now left.
      * apply persist_absent_full; auto.
        rewrite pairs_of_length, length_app. cbn [length]. lia.
      * intros _. rewrite pairs_of_length. cbn [length]. lia.
    + exists (k :: ks). split; [|split].
      * apply NoDup_cons. auto.
      * apply persist_absent_room; auto. intros Hpos. lia.
      * intros Hpos. rewrite pairs_of_length in *. cbn [length].
        specialize (Hcap Hpos). lia.
Qed.

Lemma lru_run_keeps_pairs (capacity half : Z) (history : list SwrAccess) :
  capacity = 2 * half ->
  exists ks, NoDup ks /\ lru_run capacity history = pairs_of ks.
Proof.
  intros Heven. unfold lru_run.
  enough (G : forall ks,
             NoDup ks ->
             (0 < capacity -> Z.of_nat (length (pairs_of ks)) <= capacity) ->
             exists ks', NoDup ks'
               /\ fold_left (fun order a => lru_access capacity a order) history (pairs_of ks)
                  = pairs_of ks').
  { apply (G []); [constructor | cbn; lia]. }
  induction history as [|a history IH]; intros ks Hnd Hcap; cbn [fold_left].
  - eauto.
  - destruct (lru_access_keeps_pairs capacity half a ks Heven Hnd Hcap)
      as (ks1 & Hnd1 & -> & Hcap1).
    now apply IH.
Qed.

(** With the capacity [swr] configures, whatever the history of lookups and
    writes, the store holds the value of a key exactly when it holds its
    timestamp: LRU pressure from other keys never splits a pair. *)
Lemma swr_entries_are_evicted_together (env : Env) (options : SwrOptions)
    (history : list SwrAccess) (key : string) :
  let order := lru_run (lruSize (swr_flat_options env options)) history in
  ValueEntry key ∈ order <-> TimeEntry key ∈ order.
Proof.
  cbn zeta.
  destruct (lru_run_keeps_pairs (lruSize (swr_flat_options env options))
              (swr_max options ?? 0) history) as (ks & _ & ->).
  { unfold swr_flat_options. cbn [lruSize].
    destruct (Z.eqb_spec (swr_max options ?? 0) 0) as [->|]; lia. }
  rewrite !elem_of_pairs_of.
  split; intros (k & Hk & [He|He]); try discriminate He;
    injection He as ->; eauto.
Qed.

(** Without the doubling a store limited to one entry would keep the
    timestamp of a key and lose its value. *)
Example undoubled_capacity_splits_a_pair :
  lru_run 1 [Persist "a"] = [TimeEntry "a"]
  /\ lru_run 2 [Persist "a"] = [TimeEntry "a"; ValueEntry "a"].
Proof. split; reflexivity. Qed.

(** ** Store configuration *)



(** ** Concrete runs *)

(** C2, counterexample: a function among the arguments is no error, and its
    list gets the key of a different list. *)
Lemma function_argument_collides_with_null :
  is_throw (deriveKey [JFunction "f"]) = false
  /\ deriveKey [JFunction "f"] = deriveKey [JNull]
  /\ deep_equal_args [JFunction "f"] [JNull] = false.
Proof. repeat split. Qed.





Lemma memo_present_but_falsy_is_a_hit_witness :
  let cached := fst (memo demo_env versioned demo_memo_options empty_state) in
  falsy (JNumber 0) = true
  /\ entries (memo_store demo_env demo_memo_options empty_state)
       (world_holding (JNumber 0)) !! "_" = Some (JNumber 0)
  /\ call cached [] (world_holding (JNumber 0))
     = (Ok (JNumber 0), world_holding (JNumber 0)).
Proof.
  cbn zeta. split; [reflexivity|]. split; [reflexivity|].
  apply (proj1 (memo_present_but_falsy_is_a_hit demo_env versioned demo_memo_options
                  empty_state _ _ (world_holding (JNumber 0)) [] "_" (JNumber 0)
                  eq_refl eq_refl eq_refl eq_refl ltac:(discriminate))).
  reflexivity.
Defined.

(** The other falsy values of the claim are hits as well. *)
Example memo_hits_on_empty_string_false_and_null :
  let cached := fst (memo demo_env versioned demo_memo_options empty_state) in
  call cached [] (world_holding (JString EmptyString))
    = (Ok (JString EmptyString), world_holding (JString EmptyString))
  /\ call cached [] (world_holding (JBool false))
    = (Ok (JBool false), world_holding (JBool false))
  /\ call cached [] (world_holding JNull) = (Ok JNull, world_holding JNull).
Proof. repeat split. Qed.

Lemma memo_undefined_is_never_cached_witness :
  let cached := fst (memo demo_env resolves_undefined demo_memo_options empty_state) in
  let run := run_calls (call cached) (replicate 3 []) empty_world in
  fst run = replicate 3 (Ok JUndefined)
  /\ calls (snd run) = calls empty_world ++ replicate 3 ("memo", []).
Proof.
  cbn zeta.
  apply (memo_undefined_is_never_cached demo_env resolves_undefined demo_memo_options
           empty_state _ _ [] "_" 3 empty_world eq_refl eq_refl eq_refl);
    [intros u; reflexivity | reflexivity].
Defined.

(** C5, counterexample: a zero-argument producer that resolves to
    [undefined] is invoked by each of two consecutive calls. *)
Lemma zero_argument_producer_of_undefined_runs_twice :
  let cached := fst (memo demo_env resolves_undefined demo_memo_options empty_state) in
  let first := call cached [] empty_world in
  let second := call cached [] (snd first) in
  fst first = Ok JUndefined
  /\ fst second = Ok JUndefined
  /\ calls (snd second) = [("memo", []); ("memo", [])]
  /\ user (snd second) = 3.
Proof. repeat split. Qed.

Lemma zero_argument_calls_are_cached_witness :
  let cached := fst (memo demo_env versioned demo_memo_options empty_state) in
  let first := call cached [] empty_world in
  let second := call cached [] (snd first) in
  fst first = Ok (JObject [("version", JNumber 1)])
  /\ fst second = Ok (JObject [("version", JNumber 1)])
  /\ calls (snd second) = calls empty_world ++ [("memo", [])].
Proof.
  cbn zeta.
  apply (proj2 (zero_argument_calls_are_cached demo_env) versioned demo_memo_options
           empty_state _ _ empty_world (JObject [("version", JNumber 1)])
           eq_refl eq_refl eq_refl eq_refl).
  discriminate.
Defined.

Lemma disabled_is_pass_through_witness :
  let cached := fst (swr demo_env_disabled versioned demo_swr_options empty_state) in
  run_calls (call cached) [[]; [JString "a"]; []] empty_world
  = ([Ok (JObject [("version", JNumber 1)]);
      Ok (JObject [("version", JNumber 2)]);
      Ok (JObject [("version", JNumber 3)])],
     after_calls "swr" [[]; [JString "a"]; []] 4 empty_world)
  /\ clear cached empty_world = (Ok tt, empty_world).
Proof.
  cbn zeta.
  destruct (disabled_is_pass_through demo_env_disabled versioned "swr" empty_state
              (fst (swr demo_env_disabled versioned demo_swr_options empty_state))
              (snd (swr demo_env_disabled versioned demo_swr_options empty_state))
              eq_refl
              (wraps_swr demo_env_disabled versioned "swr" empty_state
                 (fst (swr demo_env_disabled versioned demo_swr_options empty_state))
                 (snd (swr demo_env_disabled versioned demo_swr_options empty_state))
                 demo_swr_options eq_refl eq_refl))
    as (_ & Hcalls & Hclear).
  split; [|apply Hclear].
  exact (proj1 (Hcalls [[]; [JString "a"]; []] empty_world)).
Defined.

(** C1, counterexample: an instance whose [clear()] throws is registered
    before a memo cache that holds [{version: 1}].  [clearAllCaches] throws,
    the world is as it was, and the memo cache still answers
    [{version: 1}]: its [clear()] was not called. *)
Lemma a_throwing_clear_skips_the_later_instances :
  let made := memo demo_env versioned demo_memo_options empty_state in
  let cached := fst made in
  let w := snd (call cached [] (world (snd made))) in
  let registry := clearable failing_instance :: caches (snd made) in
  let after := clearAllCaches {| caches := registry; world := w |} in
  registry = [clearable failing_instance; clearable cached]
  /\ fst after = Throw (TypeError "clear failed")
  /\ world (snd after) = w
  /\ entries (memo_store demo_env demo_memo_options empty_state) (world (snd after))
       !! "_" = Some (JObject [("version", JNumber 1)])
  /\ fst (call cached [] (world (snd after))) = Ok (JObject [("version", JNumber 1)])
  /\ ~ exists w', cleared_in_order registry w w'.
Proof.
  cbn zeta. repeat split.
  intros [w' H]. inversion H as [|? ? ? ? ? E _]. discriminate E.
Qed.

(** P5 of the specification, on both wrappers: [{version: 1}], then
    [clearAllCaches()], then [{version: 2}]. *)
Example clearAllCaches_then_version_2 :
  let made_swr := swr demo_env versioned demo_swr_options empty_state in
  let made_memo := memo demo_env versioned demo_memo_options (snd made_swr) in
  let st := snd made_memo in
  let a := call (fst made_swr) [] (world st) in
  let b := call (fst made_memo) [] (snd a) in
  let cleared := clearAllCaches {| caches := caches st; world := snd b |} in
  let c := call (fst made_swr) [] (world (snd cleared)) in
  let d := call (fst made_memo) [] (snd c) in
  fst a = Ok (JObject [("version", JNumber 1)])
  /\ fst b = Ok (JObject [("version", JNumber 2)])
  /\ fst cleared = Ok tt
  /\ fst c = Ok (JObject [("version", JNumber 3)])
  /\ fst d = Ok (JObject [("version", JNumber 4)]).
Proof. vm_compute. repeat split. Qed.


(** P6 of the specification on the defaults (stale after 30 minutes, expired
    after 7 days): a fresh entry is served without the producer; a stale one
    is served as it is while the producer runs once more and its value is
    stored; an expired one is refetched. *)
Example swr_freshness_windows :
  let cached := fst (swr demo_env versioned demo_swr_options empty_state) in
  let w0 := world (snd (swr demo_env versioned demo_swr_options empty_state)) in
  let miss := call cached [JString "a"] w0 in
  let fresh := call cached [JString "a"] (advance 1799999 (snd miss)) in
  let stale := call cached [JString "a"] (advance 1 (snd fresh)) in
  let served := call cached [JString "a"] (advance 1 (snd stale)) in
  let expired := call cached [JString "a"] (advance 604800000 (snd served)) in
  fst miss = Ok (JObject [("version", JNumber 1)])
  /\ fst fresh = Ok (JObject [("version", JNumber 1)])
  /\ calls (snd fresh) = [("swr", [JString "a"])]
  /\ fst stale = Ok (JObject [("version", JNumber 1)])
  /\ calls (snd stale) = [("swr", [JString "a"]); ("swr", [JString "a"])]
  /\ fst served = Ok (JObject [("version", JNumber 2)])
  /\ length (calls (snd served)) = 2%nat
  /\ fst expired = Ok (JObject [("version", JNumber 3)]).
Proof. vm_compute. repeat split. Qed.

(** ** More on the memo cache *)

Ltac run_store :=
  cbv [bind lift ret throw attempt Date_now invoke
       FlatCache_get FlatCache_set FlatCache_save FlatCache_clear FlatCache_removeKey
       FlatCache_load].

Section Memo_facts.

Context {U : Type}.
Variable env : Env.

#[local] Abbreviation World := (World U).
#[local] Abbreviation Producer := (@Producer U).
#[local] Abbreviation State := (@State U).
#[local] Abbreviation Cached := (@Cached U).

(** The world a miss of a memo cache leaves, in full. *)
Lemma memo_miss_world (fn : Producer) (options : MemoOptions) (st : State)
    (cached : Cached) (st' : State) (w : World) (args : list JsVal) (key : string) :
  ASTRO_CACHE_ENABLED env = true ->
  memo env fn options st = (cached, st') ->
  deriveKey args = Ok key ->
  entries (memo_store env options st) w !! key ?? JUndefined = JUndefined ->
  let fc := memo_store env options st in
  let w1 := after_calls (memo_name options) [args] (snd (fn args (user w))) w in
  call cached args w =
  match fst (fn args (user w)) with
  | Throw e => (Throw e, w1)
  | Ok v =>
      let w2 := set_entries fc (<[key := v]> (entries fc w)) w1 in
      (Ok v, if persist_of options
             then with_disk (<[file_path fc := <[key := v]> (entries fc w)]> (disk w)) w2
             else w2)
  end.
Proof.
  intros En Hm Hk Hv.
  destruct (memo_enabled env fn options st cached st' En Hm) as (Hcall & _ & _).
  cbn zeta. rewrite Hcall. run_store. rewrite Hk, Hv. cbn.
  destruct (fn args (user w)) as [[v|e] u]; cbn; [|reflexivity].
  destruct (persist_of options); cbn; unfold with_disk; cbn;
    rewrite ?entries_set_entries_eq; reflexivity.
Qed.

(** The world [memo] leaves when it has built its cache. *)
Lemma memo_created (fn : Producer) (options : MemoOptions) (st : State)
    (cached : Cached) (st' : State) :
  ASTRO_CACHE_ENABLED env = true ->
  memo env fn options st = (cached, st') ->
  let fc := memo_store env options st in
  entries fc (world st') =
    (if persist_of options then disk (world st) !! file_path fc ?? ∅ else ∅)
  /\ disk (world st') = disk (world st)
  /\ user (world st') = user (world st)
  /\ calls (world st') = calls (world st)
  /\ next (world st') = S (next (world st)).
Proof.
  intros En. unfold memo. rewrite En. cbn [negb new_FlatCache].
  intros [= <- <-]. cbn zeta.
  destruct (persist_of options); cbn; unfold entries; cbn;
    rewrite !lookup_insert_eq; cbn; repeat split; try reflexivity.
  apply (right_id ∅ (∪)).
Qed.

Lemma run_calls_hits (f : list JsVal -> M U JsVal) (args : list JsVal)
    (v : JsVal) (w : World) (n : nat) :
  f args w = (Ok v, w) ->
  run_calls f (replicate n args) w = (replicate n (Ok v), w).
Proof.
  intros Hhit. induction n as [|n IH]; [reflexivity|].
  cbn [replicate run_calls]. now rewrite Hhit, IH.
Qed.

(** X1: a memo cache that has no value for the arguments invokes the
    producer on the first call; when it resolves to a value other than
    [undefined], every later call with the same arguments is a hit: [n + 1]
    calls in a row return that value [n + 1] times and invoke the producer
    once. *)
Theorem memo_repeated_calls_invoke_once (fn : Producer) (options : MemoOptions)
    (st : State) (cached : Cached) (st' : State) (w : World) (args : list JsVal)
    (key : string) (v : JsVal) (n : nat) :
  ASTRO_CACHE_ENABLED env = true ->
  memo env fn options st = (cached, st') ->
  deriveKey args = Ok key ->
  entries (memo_store env options st) w !! key ?? JUndefined = JUndefined ->
  fst (fn args (user w)) = Ok v ->
  v <> JUndefined ->
  let run := run_calls (call cached) (replicate (S n) args) w in
  fst run = replicate (S n) (Ok v)
  /\ calls (snd run) = calls w ++ [(memo_name options, args)]
  /\ user (snd run) = snd (fn args (user w)).
Proof.
  intros En Hm Hk Hmiss Hv Hu. cbn zeta.
  destruct (memo_miss env fn options st cached st' w args key En Hm Hk Hmiss)
    as (H1 & H2 & H3 & _ & H5).
  specialize (H5 _ Hv).
  assert (Hhit : call cached args (snd (call cached args w))
                 = (Ok v, snd (call cached args w))).
  { eapply memo_hit; eauto. rewrite H5. apply lookup_insert_eq. }
  cbn [replicate]. rewrite run_calls_cons.
  rewrite (run_calls_hits _ _ _ _ n Hhit). cbn [fst snd].
  rewrite H1, Hv. auto.
Qed.

(** What one call does to the memory of the store, whatever its outcome. *)
Lemma memo_call_entries (fn : Producer) (options : MemoOptions) (st : State)
    (cached : Cached) (st' : State) (w : World) (args : list JsVal) :
  ASTRO_CACHE_ENABLED env = true ->
  memo env fn options st = (cached, st') ->
  let fc := memo_store env options st in
  entries fc (snd (call cached args w)) = entries fc w
  \/ exists key v, deriveKey args = Ok key
       /\ entries fc (snd (call cached args w)) = <[key := v]> (entries fc w).
Proof.
  intros En Hm. cbn zeta.
  destruct (memo_enabled env fn options st cached st' En Hm) as (Hcall & _ & _).
  destruct (deriveKey args) as [key|e] eqn:Hk.
  2:{ left. rewrite Hcall. run_store. now rewrite Hk. }
  destruct (entries (memo_store env options st) w !! key ?? JUndefined) eqn:Hv;
    try (left; rewrite Hcall; run_store; rewrite Hk, Hv; reflexivity).
  rewrite (memo_miss_world fn options st cached st' w args key En Hm Hk Hv).
  destruct (fst (fn args (user w))) as [v|e]; [|left; reflexivity].
  right. exists key, v. split; [reflexivity|].
  destruct (persist_of options); cbn [snd];
    rewrite ?entries_with_disk; apply entries_set_entries_eq.
Qed.


(** X3: a rejection of the producer is not cached.  The call rejects with
    the producer's reason, the store and the disk are as before, so the next
    call with the same arguments invokes the producer again. *)
Theorem memo_rejection_is_not_cached (fn : Producer) (options : MemoOptions)
    (st : State) (cached : Cached) (st' : State) (w : World) (args : list JsVal)
    (key : string) (e : JsError) :
  ASTRO_CACHE_ENABLED env = true ->
  memo env fn options st = (cached, st') ->
  deriveKey args = Ok key ->
  entries (memo_store env options st) w !! key ?? JUndefined = JUndefined ->
  fst (fn args (user w)) = Throw e ->
  let w' := snd (call cached args w) in
  fst (call cached args w) = Throw e
  /\ entries (memo_store env options st) w' = entries (memo_store env options st) w
  /\ disk w' = disk w
  /\ calls w' = calls w ++ [(memo_name options, args)].
Proof.
  intros En Hm Hk Hmiss He. cbn zeta.
  rewrite (memo_miss_world fn options st cached st' w args key En Hm Hk Hmiss), He.
  cbn. auto.
Qed.



End Memo_facts.

(** ** More on the SWR cache and on the instances *)

Section Swr_facts.

Context {U : Type}.
Variable env : Env.

#[local] Abbreviation World := (World U).
#[local] Abbreviation Producer := (@Producer U).
#[local] Abbreviation State := (@State U).
#[local] Abbreviation Cached := (@Cached U).
#[local] Abbreviation Clearable := (@Clearable U).

(** [swr] hands the adapter over its own store to the SWR cache. *)
Lemma swr_call (fn : Producer) (options : SwrOptions) (st : State)
    (cached : Cached) (st' : State) :
  ASTRO_CACHE_ENABLED env = true ->
  swr env fn options st = (cached, st') ->
  forall args,
    call cached args =
    (key <- lift (deriveKey args) ;;
     result <- createStaleWhileRevalidateCache
                 {| storage := swr_storage (swr_store env options st);
                    minTimeToStale := ASTRO_CACHE_MIN_TIME_TO_STALE env;
                    maxTimeToLive := ASTRO_CACHE_MAX_TIME_TO_LIVE env |}
                 key (invoke (swr_name options) fn args) ;;
     ret (value result)).
Proof.
  intros En. unfold swr. rewrite En. cbn [negb new_FlatCache].
  intros [= <- <-]. reflexivity.
Qed.

(** *** Computations that keep a relation between worlds *)

Section Relates.
Variable R : World -> World -> Prop.
Hypothesis R_refl : forall w, R w w.
Hypothesis R_trans : forall w1 w2 w3, R w1 w2 -> R w2 w3 -> R w1 w3.

Lemma relates_ret {A} (a : A) : relates R (ret a).
Proof. intros w. apply R_refl. Qed.

Lemma relates_lift {A} (r : result A) : relates R (lift r).
Proof. intros w. apply R_refl. Qed.

Lemma relates_Date_now : relates R Date_now.
Proof. intros w. apply R_refl. Qed.

Lemma relates_bind {A B} (c : M U A) (k : A -> M U B) :
  relates R c -> (forall a, relates R (k a)) -> relates R (bind c k).
Proof.
  intros Hc Hk w. unfold bind. specialize (Hc w).
  destruct (c w) as [[a|e] w1]; cbn [snd] in *; [|assumption].
  eapply R_trans; [exact Hc | apply Hk].
Qed.

Lemma relates_attempt {A} (c : M U A) : relates R c -> relates R (attempt c).
Proof.
  intros Hc w. unfold attempt. specialize (Hc w). now destruct (c w).
Qed.
End Relates.

Lemma touches_only_refl (fc : FlatCache) (w : World) : touches_only fc w w.
Proof. repeat split. Qed.

Lemma touches_only_trans (fc : FlatCache) (w1 w2 w3 : World) :
  touches_only fc w1 w2 -> touches_only fc w2 w3 -> touches_only fc w1 w3.
Proof.
  intros (Hn & Hx & He & Hd) (Hn' & Hx' & He' & Hd').
  repeat split; try congruence.
  - intros fc' Hne. now rewrite He', He.
  - intros path Hne. now rewrite Hd', Hd.
Qed.

Lemma keeps_synced_refl (fc : FlatCache) (w : World) : keeps_synced fc w w.
Proof. now intros H. Qed.

Lemma keeps_synced_trans (fc : FlatCache) (w1 w2 w3 : World) :
  keeps_synced fc w1 w2 -> keeps_synced fc w2 w3 -> keeps_synced fc w1 w3.
Proof. unfold keeps_synced. auto. Qed.

Lemma touches_only_ret (fc : FlatCache) {A} (a : A) :
  relates (U:=U) (touches_only fc) (ret a).
Proof. apply relates_ret, touches_only_refl. Qed.

Lemma touches_only_lift (fc : FlatCache) {A} (r : result A) :
  relates (U:=U) (touches_only fc) (lift r).
Proof. apply relates_lift, touches_only_refl. Qed.

Lemma keeps_synced_ret (fc : FlatCache) {A} (a : A) :
  relates (U:=U) (keeps_synced fc) (ret a).
Proof. apply relates_ret, keeps_synced_refl. Qed.

Lemma keeps_synced_lift (fc : FlatCache) {A} (r : result A) :
  relates (U:=U) (keeps_synced fc) (lift r).
Proof. apply relates_lift, keeps_synced_refl. Qed.

(** The store operations and the producer, one by one. *)
Lemma touches_only_get (fc fc' : FlatCache) (key : string) :
  relates (touches_only fc) (FlatCache_get (U:=U) fc' key).
Proof. intros w. apply touches_only_refl. Qed.

Lemma touches_only_set_entries (fc : FlatCache) (items : gmap string JsVal) (w : World) :
  touches_only fc w (set_entries fc items w).
Proof.
  repeat split. intros fc' Hne. rewrite entries_set_entries.
  now rewrite decide_False by congruence.
Qed.

Lemma touches_only_set (fc : FlatCache) (key : string) (v : JsVal) :
  relates (touches_only fc) (FlatCache_set (U:=U) fc key v).
Proof. intros w. apply touches_only_set_entries. Qed.

Lemma touches_only_removeKey (fc : FlatCache) (key : string) :
  relates (touches_only fc) (FlatCache_removeKey (U:=U) fc key).
Proof. intros w. apply touches_only_set_entries. Qed.

Lemma touches_only_clear (fc : FlatCache) :
  relates (touches_only fc) (FlatCache_clear (U:=U) fc).
Proof. intros w. apply touches_only_set_entries. Qed.

Lemma touches_only_save (fc : FlatCache) :
  relates (touches_only fc) (FlatCache_save (U:=U) fc).
Proof.
  intros w. repeat split. intros path Hne. cbn.
  now rewrite lookup_insert_ne by congruence.
Qed.

Lemma touches_only_invoke (fc : FlatCache) (name : string) (fn : Producer)
    (args : list JsVal) :
  relates (touches_only fc) (invoke name fn args).
Proof. intros w. unfold invoke. destruct (fn args (user w)). repeat split. Qed.

Lemma keeps_synced_get (fc fc' : FlatCache) (key : string) :
  relates (keeps_synced fc) (FlatCache_get (U:=U) fc' key).
Proof. intros w. apply keeps_synced_refl. Qed.

Lemma keeps_synced_invoke (fc : FlatCache) (name : string) (fn : Producer)
    (args : list JsVal) :
  relates (keeps_synced fc) (invoke name fn args).
Proof. intros w. unfold invoke. destruct (fn args (user w)). now intros H. Qed.

(** A change of the memory followed by [save()] leaves the file level with
    the memory, whatever it was before. *)
Lemma synced_after_save (fc : FlatCache) (w : World) :
  synced fc (snd (FlatCache_save fc w)).
Proof.
  unfold synced. cbn. rewrite lookup_insert_eq. reflexivity.
Qed.

Lemma keeps_synced_set_save (fc : FlatCache) (key : string) (v : JsVal) :
  relates (keeps_synced fc) (FlatCache_set (U:=U) fc key v ;;; FlatCache_save fc).
Proof. intros w _. apply synced_after_save. Qed.

Lemma keeps_synced_removeKey_save (fc : FlatCache) (key : string) :
  relates (keeps_synced fc) (FlatCache_removeKey (U:=U) fc key ;;; FlatCache_save fc).
Proof. intros w _. apply synced_after_save. Qed.

Lemma keeps_synced_clear_save (fc : FlatCache) :
  relates (keeps_synced fc) (FlatCache_clear (U:=U) fc ;;; FlatCache_save fc).
Proof. intros w _. apply synced_after_save. Qed.

(** The SWR cache changes the world through its storage and through the
    producer only. *)
Lemma createStaleWhileRevalidateCache_relates (R : World -> World -> Prop)
    (config : SwrConfig) (key : string) (fn : M U JsVal) :
  (forall w, R w w) ->
  (forall w1 w2 w3, R w1 w2 -> R w2 w3 -> R w1 w3) ->
  (forall k, relates R (getItem (storage config) k)) ->
  (forall k v, relates R (setItem (storage config) k v)) ->
  relates R fn ->
  relates R (createStaleWhileRevalidateCache config key fn).
Proof.
  intros Hrefl Htrans Hget Hset Hfn. unfold createStaleWhileRevalidateCache.
  assert (Hbind : forall A B (c : M U A) (k : A -> M U B),
             relates R c -> (forall a, relates R (k a)) -> relates R (bind c k))
    by (intros; now apply relates_bind).
  assert (Hret : forall A (a : A), relates R (ret a))
    by (intros; now apply relates_ret).
  apply Hbind; [apply Hget|]. intros cachedValue.
  apply Hbind; [apply Hget|]. intros cachedAt.
  apply Hbind; [now apply relates_Date_now|]. intros t.
  assert (Hpersist : forall v,
             relates R (setItem (storage config) key v ;;;
                        setItem (storage config) (timeKey key) (JNumber t)))
    by (intros v; apply Hbind; [apply Hset | intros _; apply Hset]).
  assert (Hrefetch : forall found,
             relates R (v <- fn ;;
                        (setItem (storage config) key v ;;;
                         setItem (storage config) (timeKey key) (JNumber t)) ;;;
                        ret {| value := v; status := found |})).
  { intros found. apply Hbind; [exact Hfn|]. intros v.
    apply Hbind; [apply Hpersist | intros _; apply Hret]. }
  destruct cachedAt; try apply Hrefetch.
  destruct (nullish cachedValue); [apply Hrefetch|].
  destruct (classify _ _ _); [apply Hret| |apply Hrefetch].
  apply Hbind; [now apply relates_attempt|]. intros r.
  apply Hbind; [|intros _; apply Hret].
  destruct r; [apply Hpersist | apply Hret].
Qed.

Lemma swr_storage_touches_only (fc : FlatCache) :
  (forall k, relates (touches_only fc) (getItem (swr_storage (U:=U) fc) k))
  /\ (forall k v, relates (touches_only fc) (setItem (swr_storage (U:=U) fc) k v))
  /\ (forall k, relates (touches_only fc) (removeItem (swr_storage (U:=U) fc) k)).
Proof.
  split; [|split]; intros; cbn [swr_storage getItem setItem removeItem];
    apply (relates_bind _ (touches_only_trans fc));
    intros;
    auto using touches_only_get, touches_only_set, touches_only_removeKey,
               touches_only_save, touches_only_ret.
Qed.

Lemma swr_storage_keeps_synced (fc : FlatCache) :
  (forall k, relates (keeps_synced fc) (getItem (swr_storage (U:=U) fc) k))
  /\ (forall k v, relates (keeps_synced fc) (setItem (swr_storage (U:=U) fc) k v))
  /\ (forall k, relates (keeps_synced fc) (removeItem (swr_storage (U:=U) fc) k)).
Proof.
  split; [|split]; intros; cbn [swr_storage getItem setItem removeItem].
  - apply (relates_bind _ (keeps_synced_trans fc));
      intros; auto using keeps_synced_get, keeps_synced_ret.
  - apply keeps_synced_set_save.
  - apply keeps_synced_removeKey_save.
Qed.

(** X6: every cache instance gets a store of its own, numbered after all the
    stores made before, and touches nothing else: a call and a [clear()]
    leave the clock, the memory of every other store and every other cache
    file as they were. *)
Theorem instance_touches_only_its_own_store (fn : Producer) (name : string)
    (st : State) (cached : Cached) (st' : State) :
  ASTRO_CACHE_ENABLED env = true ->
  wraps env fn name st cached st' ->
  exists fc,
    fc_id fc = next (world st)
    /\ next (world st') = S (next (world st))
    /\ forall w,
        (forall args, touches_only fc w (snd (call cached args w)))
        /\ touches_only fc w (snd (clear cached w)).
Proof.
  intros En [options <- Hs|options <- Hm].
  - exists (swr_store env options st). split; [reflexivity|].
    split.
    { unfold swr in Hs. rewrite En in Hs. cbn [negb new_FlatCache] in Hs.
      now injection Hs as _ <-. }
    intros w.
    destruct (swr_enabled env fn options st cached st' En Hs) as (Hclear & _).
    destruct (swr_storage_touches_only (swr_store env options st)) as (Hget & Hset & _).
    split.
    + intros args. rewrite (swr_call fn options st cached st' En Hs).
      apply (relates_bind _ (touches_only_trans _));
        [apply touches_only_lift|]. intros key.
      apply (relates_bind _ (touches_only_trans _));
        [|intros; apply touches_only_ret].
      apply createStaleWhileRevalidateCache_relates;
        auto using touches_only_refl, touches_only_invoke.
      apply touches_only_trans.
    + rewrite Hclear. cbn [clear store_clear].
      apply (relates_bind _ (touches_only_trans _));
        [apply touches_only_clear | intros; apply touches_only_save].
  - exists (memo_store env options st). split; [reflexivity|].
    split.
    { unfold memo in Hm. rewrite En in Hm. cbn [negb new_FlatCache] in Hm.
      injection Hm as _ <-. now destruct (persist_of options). }
    intros w.
    destruct (memo_enabled env fn options st cached st' En Hm) as (Hcall & Hclear & _).
    split.
    + intros args. rewrite Hcall.
      apply (relates_bind _ (touches_only_trans _));
        [apply touches_only_lift|]. intros key.
      apply (relates_bind _ (touches_only_trans _));
        [apply touches_only_get|]. intros existing.
      destruct (not_undefined existing);
        [apply touches_only_ret|].
      apply (relates_bind _ (touches_only_trans _));
        [apply touches_only_invoke|]. intros v.
      apply (relates_bind _ (touches_only_trans _));
        [apply touches_only_set|]. intros _.
      apply (relates_bind _ (touches_only_trans _));
        [|intros; apply touches_only_ret].
      destruct (persist_of options);
        [apply touches_only_save | apply touches_only_ret].
    + rewrite Hclear. cbn [clear store_clear].
      apply (relates_bind _ (touches_only_trans _));
        [apply touches_only_clear|]. intros _.
      destruct (persist_of options);
        [apply touches_only_save | apply touches_only_ret].
Qed.



(** X13: arguments that [JSON.stringify] refuses.  With caching enabled a
    call with such arguments rejects with a TypeError before anything else
    happens: the store is not read, the producer is not invoked, the world
    is as it was.  With caching disabled no key is derived and the same call
    goes to the producer. *)
Theorem unserializable_arguments_reject_before_anything (fn : Producer)
    (name : string) (st : State) (cached : Cached) (st' : State) (w : World)
    (args : list JsVal) :
  wraps env fn name st cached st' ->
  existsb unserializable args = true ->
  if ASTRO_CACHE_ENABLED env
  then exists message, call cached args w = (Throw (TypeError message), w)
  else call cached args w = invoke name fn args w.
Proof.
  intros Hw Hs. destruct (ASTRO_CACHE_ENABLED env) eqn:En.
  - rewrite <- deriveKey_throws in Hs.
    destruct (deriveKey args) as [key|e] eqn:Hk; [discriminate Hs|].
    destruct (deriveKey_TypeError _ _ Hk) as [message ->].
    exists message. eapply key_error_surfaces; eauto.
  - destruct Hw as [options <- H|options <- H]; unfold swr, memo in H;
      rewrite En in H; injection H as <- _; reflexivity.
Qed.

End Swr_facts.

(** ** More on the registry *)

Section Registry_facts.

Context {U : Type}.
Variable env : Env.

#[local] Abbreviation World := (World U).
#[local] Abbreviation Producer := (@Producer U).
#[local] Abbreviation State := (@State U).
#[local] Abbreviation Cached := (@Cached U).
#[local] Abbreviation Clearable := (@Clearable U).

(** Clearing a store that is at rest changes nothing. *)
Lemma store_clear_at_rest (fc : FlatCache) (persist : bool) (w : World) :
  at_rest fc persist w -> clear (store_clear fc persist) w = (Ok tt, w).
Proof.
  intros [Hheap Hdisk]. destruct w as [n h x d u c]. cbn in *.
  run_store. unfold set_entries, with_heap, with_disk, entries. cbn.
  rewrite (insert_id h _ _ Hheap).
  destruct persist; cbn; [|reflexivity].
  rewrite Hheap. cbn. now rewrite (insert_id d _ _ (Hdisk eq_refl)).
Qed.

(** [clear()] brings its store to rest and leaves at rest the stores that
    were. *)
Lemma store_clear_brings_to_rest (fc : FlatCache) (persist : bool) (w : World) :
  let w1 := snd (clear (store_clear fc persist) w) in
  at_rest fc persist w1
  /\ forall fc' persist', at_rest fc' persist' w -> at_rest fc' persist' w1.
Proof.
  cbn zeta. destruct persist; cbn; run_store; cbn; unfold at_rest, entries; cbn.
  - rewrite !lookup_insert_eq. cbn. split; [auto|].
    intros fc' persist' [Hh Hd]. split.
    + rewrite lookup_insert. now destruct (decide (fc_id fc = fc_id fc')).
    + intros Hp. rewrite lookup_insert.
      destruct (decide (file_path fc = file_path fc')); auto.
  - rewrite !lookup_insert_eq. split; [split; [reflexivity | discriminate]|].
    intros fc' persist' [Hh Hd]. split; [|assumption].
    rewrite lookup_insert. now destruct (decide (fc_id fc = fc_id fc')).
Qed.

Lemma clear_each_brings_to_rest (registry : list Clearable) (w : World) :
  Forall made_by_wrapper registry ->
  exists w',
    clear_each registry w = (Ok tt, w')
    /\ Forall (entry_at_rest w') registry
    /\ (forall fc persist, at_rest fc persist w -> at_rest fc persist w').
Proof.
  intros Hall. revert w.
  induction Hall as [|c registry Hc _ IH]; intros w.
  - exists w. split; [reflexivity|]. split; [constructor | auto].
  - destruct Hc as [fc persist].
    destruct (store_clear_spec fc persist w) as (w1 & E1 & _).
    pose proof (store_clear_brings_to_rest fc persist w) as [Hrest Hkeep].
    rewrite E1 in Hrest, Hkeep. cbn [snd] in Hrest, Hkeep.
    destruct (IH w1) as (w2 & E2 & Hall2 & Hkeep2).
    exists w2. cbn [clear_each]. unfold bind at 1. rewrite E1, E2.
    split; [reflexivity|]. split; [|now auto].
    constructor; [|assumption]. exists fc, persist. auto.
Qed.

Lemma clear_each_at_rest (registry : list Clearable) (w : World) :
  Forall (entry_at_rest w) registry -> clear_each registry w = (Ok tt, w).
Proof.
  induction 1 as [|c registry (fc & persist & -> & Hrest) _ IH]; [reflexivity|].
  cbn [clear_each]. unfold bind at 1.
  now rewrite (store_clear_at_rest fc persist w Hrest).
Qed.

(** A registry that starts empty holds wrapper entries only. *)
Lemma reaches_made_by_wrapper (st0 st : State) :
  reaches env st0 st ->
  Forall made_by_wrapper (caches st0) ->
  Forall made_by_wrapper (caches st).
Proof.
  induction 1 as [|st fn name cached st' _ IH Hw|st w _ IH]; intros H0; auto.
  eapply wraps_registry; eauto.
Qed.

(** X9: in a module state a program reaches from an empty registry,
    [clearAllCaches] returns normally without invoking a producer: the state
    of the producers, the record of their calls and the clock are as
    before.  It is idempotent: a second [clearAllCaches] changes nothing. *)
Theorem clearAllCaches_runs_no_producer_and_is_idempotent (st0 st : State) :
  reaches env st0 st ->
  caches st0 = [] ->
  let after := clearAllCaches st in
  fst after = Ok tt
  /\ user (world (snd after)) = user (world st)
  /\ calls (world (snd after)) = calls (world st)
  /\ now (world (snd after)) = now (world st)
  /\ clearAllCaches (snd after) = (Ok tt, snd after).
Proof.
  intros Hreach Hempty. cbn zeta.
  assert (Hall : Forall made_by_wrapper (caches st)).
  { apply (reaches_made_by_wrapper st0 st Hreach). rewrite Hempty. constructor. }
  destruct (clear_each_made_by_wrapper (caches st) (world st) Hall)
    as (w1 & E1 & Hu & Hc & Hn & _).
  destruct (clear_each_brings_to_rest (caches st) (world st) Hall)
    as (w2 & E2 & Hrest & _).
  rewrite E1 in E2. injection E2 as <-.
  unfold clearAllCaches. rewrite E1. cbn.
  rewrite (clear_each_at_rest _ _ Hrest). auto.
Qed.

(** X10: with caching disabled nothing is ever registered: whatever a
    program wraps and calls, the registry it started with empty stays empty
    and [clearAllCaches] is a no-op that returns normally. *)
Theorem disabled_registry_stays_empty (st0 st : State) :
  ASTRO_CACHE_ENABLED env = false ->
  reaches env st0 st ->
  caches st0 = [] ->
  caches st = [] /\ clearAllCaches st = (Ok tt, st).
Proof.
  intros En Hreach Hempty.
  assert (Hc : caches st = []).
  { induction Hreach as [|st fn name cached st' _ IH Hw|st w _ IH]; auto.
    destruct Hw as [options _ H|options _ H]; unfold swr, memo in H;
      rewrite En in H; injection H as _ <-; assumption. }
  split; [assumption|].
  unfold clearAllCaches. rewrite Hc. cbn. destruct st. cbn in Hc. now subst.
Qed.

End Registry_facts.

(** ** The integration *)

(** X11: the integration's switch.  Under [astro dev], unless the options
    say [devCaching: true], the schema's default disables caching and a
    function wrapped by [swr] or [memo] is the producer itself, with nothing
    registered; under any other command, and under [astro dev] with
    [devCaching: true], the default enables caching and every wrapper
    registers the instance it returns. *)
Theorem astroCache_switch {U : Type} (command : string)
    (options : option AstroCacheOptions) (fn : @Producer U) (name : string)
    (st : State) (cached : Cached) (st' : State) :
  wraps (astroCache_defaults command options) fn name st cached st' ->
  (command = "dev" -> devCaching_is_true options = false ->
   st' = st
   /\ (forall args w, call cached args w = invoke name fn args w)
   /\ (forall w, clear cached w = (Ok tt, w)))
  /\ (command <> "dev" \/ devCaching_is_true options = true ->
      caches st' = caches st ++ [clearable cached]
      /\ made_by_wrapper (clearable cached)).
Proof.
  intros Hw. split.
  - intros -> Hdev.
    assert (En : ASTRO_CACHE_ENABLED (astroCache_defaults "dev" options) = false)
      by (cbn; unfold astroCache_enabled; now rewrite Hdev).
    destruct Hw as [o <- H|o <- H]; unfold swr, memo in H;
      rewrite En in H; injection H as <- <-; auto.
  - intros Hon.
    assert (En : ASTRO_CACHE_ENABLED (astroCache_defaults command options) = true).
    { cbn. unfold astroCache_enabled. destruct Hon as [Hc| ->].
      - apply String.eqb_neq in Hc. now rewrite Hc.
      - apply orb_true_r. }
    destruct (wraps_store_clear _ fn name st cached st' En Hw)
      as (fc & persist & Hc & _ & Hr).
    split; [assumption|]. rewrite Hc. constructor.
Qed.

(** ** The JSON image of the arguments *)

Lemma existsb_false_Forall {A} (g : A -> bool) (l : list A) :
  existsb g l = false -> Forall (fun x => g x = false) l.
Proof.
  induction l as [|x l IH]; cbn; [constructor|].
  intros H. apply orb_false_iff in H as [Hx Hl]. constructor; auto.
Qed.

(** The serializer writes the text of the image. *)
Lemma serialize_json_image (v : JsVal) :
  unserializable v = false ->
  SerializeJSONProperty v = Ok (json_text <$> json_image v).
Proof.
  induction v as [| |b|n| | | |s| | |l IH|l IH|] using JsVal_deep_ind;
    intros Hs; try discriminate Hs; try reflexivity.
  - now destruct b.
  - rewrite SerializeJSONProperty_array. cbn [unserializable] in Hs.
    assert (E : SerializeJSONArray_elements l
                = Ok (map json_text (map (fun x => json_image x ?? JNull) l))).
    { induction IH as [|x l Hx _ IHl]; [reflexivity|].
      cbn [existsb] in Hs. apply orb_false_iff in Hs as [Hsx Hsl].
      cbn [SerializeJSONArray_elements map]. rewrite (Hx Hsx), (IHl Hsl).
      now destruct (json_image x). }
    now rewrite E.
  - rewrite SerializeJSONProperty_object. cbn [unserializable] in Hs.
    assert (E : SerializeJSONObject_members l
                = Ok (map (fun kv => QuoteJSONString (fst kv) +:+ ":" +:+ json_text (snd kv))
                        (omap (fun kv => match json_image (snd kv) with
                                         | Some x => Some (fst kv, x)
                                         | None => None
                                         end) l))).
    { induction IH as [|[k x] l Hx _ IHl]; [reflexivity|].
      cbn [existsb snd] in Hs. apply orb_false_iff in Hs as [Hsx Hsl].
      cbn [SerializeJSONObject_members omap list_omap fst snd]. cbn [snd] in Hx.
      rewrite (Hx Hsx), (IHl Hsl).
      now destruct (json_image x). }
    now rewrite E.
Qed.

Lemma omap_key_elem_of {A B} (f : string * A -> option (string * B))
    (props : list (string * A)) (k : string) :
  (forall kv kv', f kv = Some kv' -> fst kv' = fst kv) ->
  k ∈ map fst (omap f props) -> k ∈ map fst props.
Proof.
  intros Hf. induction props as [|kv props IH]; cbn; [auto|].
  destruct (f kv) as [kv'|] eqn:E; cbn.
  - rewrite !elem_of_cons. intros [->|H]; [left; now apply Hf | right; auto].
  - rewrite elem_of_cons. auto.
Qed.

Lemma omap_keys_NoDup {A B} (f : string * A -> option (string * B))
    (props : list (string * A)) :
  (forall kv kv', f kv = Some kv' -> fst kv' = fst kv) ->
  NoDup (map fst props) -> NoDup (map fst (omap f props)).
Proof.
  intros Hf. induction props as [|kv props IH]; cbn; [auto|].
  intros ND. apply NoDup_cons in ND as [Hk ND].
  destruct (f kv) as [kv'|] eqn:E; cbn; [|auto].
  apply NoDup_cons. split; [|auto].
  rewrite (Hf _ _ E). intros H. apply Hk. eapply omap_key_elem_of; eauto.
Qed.

(** The image of a serializable value is JSON-representable. *)
Lemma json_image_representable (v : JsVal) :
  unserializable v = false ->
  well_keyed v = true ->
  JSON_representable (json_image v ?? JNull) = true.
Proof.
  induction v as [| |b|n| | | |s| | |l IH|l IH|] using JsVal_deep_ind;
    intros Hs Hk; try discriminate Hs; try reflexivity.
  - change (forallb JSON_representable (map (fun x => json_image x ?? JNull) l) = true).
    cbn [unserializable well_keyed] in Hs, Hk.
    induction IH as [|x l Hx _ IHl]; [reflexivity|].
    cbn [existsb] in Hs. apply orb_false_iff in Hs as [Hsx Hsl].
    cbn [forallb] in Hk. apply andb_prop in Hk as [Hkx Hkl].
    cbn [map forallb]. now rewrite (Hx Hsx Hkx), (IHl Hsl Hkl).
  - change (forallb (fun kv => JSON_representable (snd kv))
              (omap (fun kv => match json_image (snd kv) with
                               | Some x => Some (fst kv, x)
                               | None => None
                               end) l)
            && bool_decide (NoDup (map fst
                 (omap (fun kv => match json_image (snd kv) with
                                  | Some x => Some (fst kv, x)
                                  | None => None
                                  end) l))) = true).
    cbn [unserializable well_keyed] in Hs, Hk.
    apply andb_prop in Hk as [Hk ND]. apply bool_decide_eq_true in ND.
    apply andb_true_intro. split.
    + clear ND. induction IH as [|[k x] l Hx _ IHl]; [reflexivity|].
      cbn [existsb snd] in Hs. apply orb_false_iff in Hs as [Hsx Hsl].
      cbn [forallb snd] in Hk. apply andb_prop in Hk as [Hkx Hkl].
      cbn [omap list_omap fst snd]. cbn [snd] in Hx. specialize (Hx Hsx Hkx).
      destruct (json_image x) as [x'|]; cbn [forallb snd]; [|auto].
      cbn in Hx. now rewrite Hx, (IHl Hsl Hkl).
    + apply bool_decide_eq_true. apply omap_keys_NoDup; [|assumption].
      intros [k x] kv'. cbn. destruct (json_image x); [|discriminate].
      now intros [= <-].
Qed.

(** The key of a list is the key of the list of its images. *)
Lemma deriveKey_argument_image (args : list JsVal) :
  existsb unserializable args = false ->
  forallb well_keyed args = true ->
  forallb JSON_representable (map argument_image args) = true
  /\ deriveKey args = deriveKey (map argument_image args).
Proof.
  intros Hs Hk.
  assert (R : forallb JSON_representable (map argument_image args) = true).
  { exact (json_image_representable (JArray args) Hs Hk). }
  split; [assumption|].
  rewrite (deriveKey_representable _ R).
  destruct args as [|x l]; [reflexivity|].
  unfold deriveKey, JSON_stringify.
  now rewrite (serialize_json_image (JArray (x :: l)) Hs).
Qed.


(** ** More concrete runs *)

Lemma memo_repeated_calls_invoke_once_witness :
  let cached := fst (memo demo_env versioned demo_memo_options empty_state) in
  let run := run_calls (call cached) (replicate 3 [JString "a"]) empty_world in
  fst run = replicate 3 (Ok (JObject [("version", JNumber 1)]))
  /\ calls (snd run) = calls empty_world ++ [("memo", [JString "a"])]
  /\ user (snd run) = 2.
Proof.
  cbn zeta.
  eapply (memo_repeated_calls_invoke_once demo_env versioned demo_memo_options
            empty_state _ _ empty_world [JString "a"] _ _ 2);
    [reflexivity | reflexivity | reflexivity | reflexivity | reflexivity | discriminate].
Defined.


Lemma memo_rejection_is_not_cached_witness :
  let cached := fst (memo demo_env rejects demo_memo_options empty_state) in
  let w' := snd (call cached [] empty_world) in
  fst (call cached [] empty_world) = Throw (Rejected (JString "down"))
  /\ entries (memo_store demo_env demo_memo_options empty_state) w'
     = entries (memo_store demo_env demo_memo_options empty_state) empty_world
  /\ disk w' = disk empty_world
  /\ calls w' = calls empty_world ++ [("memo", [])].
Proof.
  cbn zeta.
  eapply (memo_rejection_is_not_cached demo_env rejects demo_memo_options empty_state);
    reflexivity.
Defined.



Lemma instance_touches_only_its_own_store_witness :
  let made := swr demo_env versioned demo_swr_options empty_state in
  exists fc,
    fc_id fc = next (world empty_state)
    /\ next (world (snd made)) = S (next (world empty_state))
    /\ forall w,
        (forall args, touches_only fc w (snd (call (fst made) args w)))
        /\ touches_only fc w (snd (clear (fst made) w)).
Proof.
  cbn zeta.
  apply (instance_touches_only_its_own_store demo_env versioned "swr" empty_state
           (fst (swr demo_env versioned demo_swr_options empty_state))
           (snd (swr demo_env versioned demo_swr_options empty_state))
           eq_refl
           (wraps_swr demo_env versioned "swr" empty_state
              (fst (swr demo_env versioned demo_swr_options empty_state))
              (snd (swr demo_env versioned demo_swr_options empty_state))
              demo_swr_options eq_refl eq_refl)).
Defined.


Lemma clearAllCaches_runs_no_producer_and_is_idempotent_witness :
  let made := memo demo_env versioned demo_memo_options empty_state in
  let w := snd (call (fst made) [] (world (snd made))) in
  let st := {| caches := caches (snd made); world := w |} in
  let after := clearAllCaches st in
  fst after = Ok tt
  /\ user (world (snd after)) = user w
  /\ calls (world (snd after)) = calls w
  /\ now (world (snd after)) = now w
  /\ clearAllCaches (snd after) = (Ok tt, snd after).
Proof.
  cbn zeta.
  apply (clearAllCaches_runs_no_producer_and_is_idempotent demo_env empty_state);
    [|reflexivity].
  apply reaches_run.
  apply (reaches_wrap demo_env empty_state empty_state versioned "memo"
           (fst (memo demo_env versioned demo_memo_options empty_state))
           (snd (memo demo_env versioned demo_memo_options empty_state))
           (reaches_start demo_env empty_state)).
  exact (wraps_memo demo_env versioned "memo" empty_state _ _
           demo_memo_options eq_refl eq_refl).
Defined.

Lemma disabled_registry_stays_empty_witness :
  let made := swr demo_env_disabled versioned demo_swr_options empty_state in
  let st := {| caches := caches (snd made);
               world := snd (call (fst made) [] (world (snd made))) |} in
  caches st = [] /\ clearAllCaches st = (Ok tt, st).
Proof.
  cbn zeta.
  apply (disabled_registry_stays_empty demo_env_disabled empty_state);
    [reflexivity| |reflexivity].
  apply reaches_run.
  apply (reaches_wrap demo_env_disabled empty_state empty_state versioned "swr"
           (fst (swr demo_env_disabled versioned demo_swr_options empty_state))
           (snd (swr demo_env_disabled versioned demo_swr_options empty_state))
           (reaches_start demo_env_disabled empty_state)).
  exact (wraps_swr demo_env_disabled versioned "swr" empty_state _ _
           demo_swr_options eq_refl eq_refl).
Defined.

Lemma astroCache_switch_witness :
  let dev := astroCache_defaults "dev" None in
  let build := astroCache_defaults "build" None in
  let in_dev := memo dev versioned demo_memo_options empty_state in
  let in_build := memo build versioned demo_memo_options empty_state in
  (snd in_dev = empty_state
   /\ (forall args w, call (fst in_dev) args w = invoke "memo" versioned args w)
   /\ (forall w, clear (fst in_dev) w = (Ok tt, w)))
  /\ (caches (snd in_build) = caches empty_state ++ [clearable (fst in_build)]
      /\ made_by_wrapper (clearable (fst in_build))).
Proof.
  cbn zeta. split.
  - apply (proj1 (astroCache_switch "dev" None versioned "memo" empty_state _ _
                    (wraps_memo (astroCache_defaults "dev" None) versioned "memo"
                       empty_state _ _ demo_memo_options eq_refl eq_refl)));
      reflexivity.
  - apply (proj2 (astroCache_switch "build" None versioned "memo" empty_state _ _
                    (wraps_memo (astroCache_defaults "build" None) versioned "memo"
                       empty_state _ _ demo_memo_options eq_refl eq_refl))).
    left. discriminate.
Defined.


Lemma unserializable_arguments_reject_before_anything_witness :
  let cached := fst (swr demo_env versioned demo_swr_options empty_state) in
  let passed := fst (swr demo_env_disabled versioned demo_swr_options empty_state) in
  (exists message,
     call cached [JArray [JCircular 0]] empty_world
     = (Throw (TypeError message), empty_world))
  /\ call passed [JArray [JCircular 0]] empty_world
     = invoke "swr" versioned [JArray [JCircular 0]] empty_world.
Proof.
  cbn zeta. split.
  - exact (unserializable_arguments_reject_before_anything demo_env versioned "swr"
             empty_state _ _ empty_world [JArray [JCircular 0]]
             (wraps_swr demo_env versioned "swr" empty_state _ _
                demo_swr_options eq_refl eq_refl) eq_refl).
  - exact (unserializable_arguments_reject_before_anything demo_env_disabled versioned
             "swr" empty_state _ _ empty_world [JArray [JCircular 0]]
             (wraps_swr demo_env_disabled versioned "swr" empty_state _ _
                demo_swr_options eq_refl eq_refl) eq_refl).
Defined.
